(** * Gradient probing for receptive fields: the TensorFlow adapter

    A shallow embedding of [receptivefield/tensorflow.py]: the probing step
    [_get_gradient_from_grid_points], the gradient definition
    [_define_fm_gradient] and the two [_prepare_gradient_func] methods,
    over a small model of the numpy arrays and of the TensorFlow graph and
    session interface they call. *)

From stdpp Require Import base option list strings gmap.
From Stdlib Require Import ZArith QArith Lia.

Local Open Scope Z_scope.

(** ** Python exceptions and the two effect layers *)

(** The exception classes that the modelled calls raise.  [UserError] stands
    for whatever the user's model callback raises; [TensorResolutionError]
    is the class the specification names: no code path constructs it. *)
Inductive exn :=
| KeyError (name : string)
| IndexError
| TypeError
| ValueError
| RuntimeError
| AttributeError
| InvalidArgumentError
| Unsupported
| UserError (msg : string)
| TensorResolutionError.

Inductive result (A : Type) :=
| Ok (a : A)
| Raise (e : exn).
Arguments Ok {A} a.
Arguments Raise {A} e.

Definition rbind {A B} (m : result A) (k : A -> result B) : result B :=
  match m with Ok a => k a | Raise e => Raise e end.

#[global] Instance result_ret : MRet result := fun A a => Ok a.
#[global] Instance result_bind : MBind result := fun A B k m => rbind m k.
#[global] Instance result_fmap : FMap result :=
  fun A B f m => rbind m (fun a => Ok (f a)).

Definition is_ok {A} (r : result A) : bool :=
  match r with Ok _ => true | Raise _ => false end.

(** [for x in xs: out.append(f x)], stopping at the first exception. *)
Fixpoint forM {A B} (f : A -> result B) (xs : list A) : result (list B) :=
  match xs with
  | [] => Ok []
  | x :: xs' => y ← f x; ys ← forM f xs'; Ok (y :: ys)
  end.

(** [seq[i]] for a Python list and an index that is never negative. *)
Definition py_getitem {A} (l : list A) (i : nat) : result A :=
  match l !! i with Some a => Ok a | None => Raise IndexError end.

(** Index normalisation of Python and numpy: negative indices count from
    the end, anything outside [-len, len) raises. *)
Definition py_index (i : Z) (len : nat) : result nat :=
  if (0 <=? i) && (i <? Z.of_nat len) then Ok (Z.to_nat i)
  else if (- Z.of_nat len <=? i) && (i <? 0) then Ok (Z.to_nat (i + Z.of_nat len))
  else Raise IndexError.

(** ** Geometry types *)

(** Modelled from the spec: the value types of [receptivefield/types.py],
    which is not among the sources.  [GridShape] is "{n, height, width,
    channels}", [GridPoint] "{x, y}", [ImageShape] "{height, width,
    channels}"; the fields are Python integers. *)
Record GridShape := mkGridShape { gs_n : Z; gs_h : Z; gs_w : Z; gs_c : Z }.
Record GridPoint := mkGridPoint { gp_x : Z; gp_y : Z }.
Record ImageShape := mkImageShape { is_h : Z; is_w : Z; is_c : Z }.

(** Modelled from the spec: [GridShape.replace(n=...)], "a replace field
    operation used to derive a batch-size-1 variant of a shape without
    mutating the original". *)
Definition replace_n (s : GridShape) (n : Z) : GridShape :=
  {| gs_n := n; gs_h := gs_h s; gs_w := gs_w s; gs_c := gs_c s |}.

(** [GridShape( *xs )]: exactly four positional arguments. *)
Definition GridShape_star (xs : list Z) : result GridShape :=
  match xs with
  | [n; h; w; c] => Ok (mkGridShape n h w c)
  | _ => Raise TypeError
  end.

(** ** Numbers and arrays *)

(** The element type of arrays with the operations the program needs.  No
    law is assumed, so the results hold for any arithmetic. *)
Class Scalar (R : Type) := {
  r0 : R;
  radd : R -> R -> R;
  rmul : R -> R -> R;
  rdiv : R -> nat -> R
}.

(** The rationals, for the concrete facts at the end of the file. *)
#[global] Instance Q_scalar : Scalar Q :=
  {| r0 := 0%Q; radd := Qplus; rmul := Qmult;
     rdiv := fun q n => (q / inject_Z (Z.of_nat n))%Q |}.

Section Arrays.
Context {R : Type} `{Scalar R}.

(** A four-dimensional array in NHWC layout: its shape and its entries. *)
Record ndarray := mkNd {
  nd_shape : nat * nat * nat * nat;
  nd_data : list (list (list (list R)))
}.

Definition nd_get (a : ndarray) (b i j ch : nat) : option R :=
  img ← nd_data a !! b; row ← img !! i; px ← row !! j; px !! ch.

(** [np.zeros(shape=s)] for a four-field shape tuple. *)
Definition np_zeros (s : GridShape) : result ndarray :=
  if (gs_n s <? 0) || (gs_h s <? 0) || (gs_w s <? 0) || (gs_c s <? 0)
  then Raise ValueError
  else
    let n := Z.to_nat (gs_n s) in
    let h := Z.to_nat (gs_h s) in
    let w := Z.to_nat (gs_w s) in
    let c := Z.to_nat (gs_c s) in
    Ok {| nd_shape := (n, h, w, c);
          nd_data := replicate n (replicate h (replicate w (replicate c r0))) |}.

(** [a[:, y, x, 0] = v]: every batch entry is written at the given
    spatial position of channel 0. *)
Definition nd_set_yx0 (a : ndarray) (y x : Z) (v : R) : result ndarray :=
  let '(n, h, w, c) := nd_shape a in
  iy ← py_index y h;
  ix ← py_index x w;
  ic ← py_index 0 c;
  Ok {| nd_shape := nd_shape a;
        nd_data := map (alter (alter (<[ic := v]>) ix) iy) (nd_data a) |}.

Definition all_zero (a : ndarray) : Prop :=
  forall b i j ch v, nd_get a b i j ch = Some v -> v = r0.

End Arrays.
Arguments ndarray R : clear implicits.

(** ** Static shapes and symbolic tensors *)

(** A static shape: [None] is an unknown rank, [Some dims] a known rank
    whose dimensions are known ([Some d]) or not. *)
Definition tshape := option (list (option N)).

(** The tensors of a graph.  A leaf is a placeholder made by
    [tf.placeholder] or an output of an operation of the user's model; the
    other constructors are the operations [_define_fm_gradient] applies.
    Every tensor lives in the graph of its leaves. *)
Inductive tensor :=
| TPlaceholder (g id : nat) (shape : list N)
| TModel (g id idx : nat) (shape : tshape)
| TReduceMean (t : tensor) (axis : option Z) (keep_dims : bool)
| TMul (a b : tensor)
| TGrad (y x : tensor).

#[global] Instance tensor_eq_dec : EqDecision tensor.
Proof. solve_decision. Defined.

Fixpoint t_graph (t : tensor) : nat :=
  match t with
  | TPlaceholder g _ _ => g
  | TModel g _ _ _ => g
  | TReduceMean a _ _ => t_graph a
  | TMul a _ => t_graph a
  | TGrad y _ => t_graph y
  end.

(** Shape inference of a reduction: an axis outside the rank is refused
    when the graph is built. *)
Definition reduce_shape (s : tshape) (axis : option Z) (keep_dims : bool)
  : result tshape :=
  match axis, s with
  | None, _ =>
      Ok (if keep_dims then fmap (M := list) (fun _ => Some 1%N) <$> s else Some [])
  | Some _, None => Ok None
  | Some a, Some dims =>
      match py_index a (length dims) with
      | Ok k => Ok (Some (if keep_dims then <[k := Some 1%N]> dims else delete k dims))
      | Raise _ => Raise ValueError
      end
  end.

(** Shape inference of an elementwise product: numpy broadcasting, the
    shapes aligned at their last dimension. *)
Definition broadcast_dim (a b : option N) : result (option N) :=
  match a, b with
  | Some x, Some y =>
      if (x =? y)%N then Ok (Some x)
      else if (x =? 1)%N then Ok (Some y)
      else if (y =? 1)%N then Ok (Some x)
      else Raise ValueError
  | Some x, None => Ok (if (x =? 1)%N then None else Some x)
  | None, Some y => Ok (if (y =? 1)%N then None else Some y)
  | None, None => Ok None
  end.

Fixpoint broadcast_rev (a b : list (option N)) : result (list (option N)) :=
  match a, b with
  | [], l => Ok l
  | l, [] => Ok l
  | x :: a', y :: b' =>
      d ← broadcast_dim x y; r ← broadcast_rev a' b'; Ok (d :: r)
  end.

Definition broadcast_shape (a b : tshape) : result tshape :=
  match a, b with
  | Some la, Some lb =>
      r ← broadcast_rev (reverse la) (reverse lb); Ok (Some (reverse r))
  | _, _ => Ok None
  end.

(** [tensor.get_shape()]. *)
Fixpoint get_shape (t : tensor) : tshape :=
  match t with
  | TPlaceholder _ _ s => Some (Some <$> s)
  | TModel _ _ _ s => s
  | TReduceMean a axis keep_dims =>
      match reduce_shape (get_shape a) axis keep_dims with
      | Ok s => s
      | Raise _ => None
      end
  | TMul a b =>
      match broadcast_shape (get_shape a) (get_shape b) with
      | Ok s => s
      | Raise _ => None
      end
  | TGrad _ x => get_shape x
  end.

(** [_get_tensor_shape]: [list(map(int, tensor.get_shape()))].  Iterating
    a shape of unknown rank raises [ValueError]; [int] of an unknown
    dimension raises [TypeError]. *)
Definition _get_tensor_shape (t : tensor) : result (list Z) :=
  match get_shape t with
  | None => Raise ValueError
  | Some dims =>
      forM (fun d => match d with
                     | Some n => Ok (Z.of_N n)
                     | None => Raise TypeError
                     end) dims
  end.

(** ** Array arithmetic behind the graph operations *)

Section Numerics.
Context {R : Type} `{Scalar R}.

(** What a fetched tensor evaluates to. *)
Inductive value :=
| VScalar (r : R)
| VArr (a : ndarray R).

Definition mean (l : list R) : R := rdiv (foldl radd r0 l) (length l).

Definition nd_entries (a : ndarray R) : list R :=
  concat (concat (concat (nd_data a))).

(** Mean over the last axis, the axis kept with width 1. *)
Definition nd_channel_mean (a : ndarray R) : ndarray R :=
  let '(n, h, w, _) := nd_shape a in
  {| nd_shape := (n, h, w, 1%nat);
     nd_data := map (map (map (fun px => [mean px]))) (nd_data a) |}.

(** [reduce_mean] on values: over every axis, or over the last one with
    [keep_dims].  Other reductions leave the four-dimensional layout and
    are outside this model. *)
Definition np_mean (v : value) (axis : option Z) (keep_dims : bool)
  : result value :=
  match v, axis, keep_dims with
  | VScalar r, None, false => Ok (VScalar r)
  | VArr a, None, false => Ok (VScalar (mean (nd_entries a)))
  | VArr a, Some k, true =>
      match py_index k 4 with
      | Ok 3%nat => Ok (VArr (nd_channel_mean a))
      | Ok _ => Raise Unsupported
      | Raise _ => Raise InvalidArgumentError
      end
  | _, _, _ => Raise Unsupported
  end.

(** Broadcasting along one axis: a side of length 1 is repeated. *)
Definition bzip {A B C} (f : A -> B -> C) (la : list A) (lb : list B) : list C :=
  match la, lb with
  | [a], _ => map (f a) lb
  | _, [b] => map (fun a => f a b) la
  | _, _ => zip_with f la lb
  end.

Definition bdim (x y : nat) : option nat :=
  if (x =? y)%nat then Some x
  else if (x =? 1)%nat then Some y
  else if (y =? 1)%nat then Some x
  else None.

Definition nd_mul (a b : ndarray R) : result (ndarray R) :=
  let '(n1, h1, w1, c1) := nd_shape a in
  let '(n2, h2, w2, c2) := nd_shape b in
  match bdim n1 n2, bdim h1 h2, bdim w1 w2, bdim c1 c2 with
  | Some n, Some h, Some w, Some c =>
      Ok {| nd_shape := (n, h, w, c);
            nd_data := bzip (bzip (bzip (bzip rmul))) (nd_data a) (nd_data b) |}
  | _, _, _, _ => Raise InvalidArgumentError
  end.

Definition nd_scale (r : R) (a : ndarray R) : ndarray R :=
  {| nd_shape := nd_shape a;
     nd_data := map (map (map (map (rmul r)))) (nd_data a) |}.

Definition np_multiply (u v : value) : result value :=
  match u, v with
  | VScalar r, VScalar s => Ok (VScalar (rmul r s))
  | VScalar r, VArr a => Ok (VArr (nd_scale r a))
  | VArr a, VScalar r => Ok (VArr (nd_scale r a))
  | VArr a, VArr b => VArr <$> nd_mul a b
  end.

Definition as_scalar (v : value) : result R :=
  match v with VScalar r => Ok r | VArr _ => Raise InvalidArgumentError end.

Definition as_array (v : value) : result (ndarray R) :=
  match v with VArr a => Ok a | VScalar _ => Raise InvalidArgumentError end.

(** Entries agree with the declared shape. *)
Definition nd_wf (a : ndarray R) : Prop :=
  let '(n, h, w, c) := nd_shape a in
  length (nd_data a) = n /\
  Forall (fun img => length img = h /\
    Forall (fun row => length row = w /\
      Forall (fun px => length px = c) row) img) (nd_data a).

End Numerics.
Arguments value R : clear implicits.

(** ** The backend: graphs, sessions and evaluation *)

Section Adapter.
Context {R : Type} `{Scalar R}.

(** A Python [dict] keyed by tensors, as the list of its items. *)
Definition feed_dict := list (tensor * ndarray R).

Fixpoint dict_get (d : feed_dict) (k : tensor) : option (ndarray R) :=
  match d with
  | [] => None
  | (k', v) :: d' => if decide (k = k') then Some v else dict_get d' k
  end.

(** [d[k] = v]: the item of an existing key is overwritten. *)
Fixpoint dict_set (d : feed_dict) (k : tensor) (v : ndarray R) : feed_dict :=
  match d with
  | [] => [(k, v)]
  | (k', v') :: d' =>
      if decide (k = k') then (k, v) :: d' else (k', v') :: dict_set d' k v
  end.

(** [{k: v for k, v in items}]. *)
Definition dict_of (items : list (tensor * ndarray R)) : feed_dict :=
  foldl (fun d kv => dict_set d kv.1 kv.2) [] items.

(** What the user's model callback puts into a graph: its named
    operations with the static shapes of their outputs, the value of each
    output under given feeds, which outputs depend on which tensors, and
    whether its variables initialise. *)
Record model := mkModel {
  m_ops : list (string * list tshape);
  m_value : feed_dict -> nat -> nat -> result (ndarray R);
  m_connected : nat -> nat -> tensor -> bool;
  m_init : option string
}.

Definition empty_model : model :=
  {| m_ops := [];
     m_value := fun _ _ _ => Raise InvalidArgumentError;
     m_connected := fun _ _ _ => false;
     m_init := None |}.

Record operation := mkOp { op_outputs : list tensor }.

(** A graph under construction: the operations by name, the number of
    placeholders made so far, and the user's model. *)
Record graph_data := mkGraph {
  g_ops : gmap string operation;
  g_next : nat;
  g_model : model
}.

(** The parts of the backend that the program cannot see into: under
    which names a builder call files the operations it adds (the call's
    base name and the tensor it returns are given), and the automatic
    differentiation of a scalar function of an array at a point. *)
Record backend := mkBackend {
  be_register : string -> tensor -> gmap string operation -> gmap string operation;
  be_grad : (ndarray R -> result R) -> ndarray R -> result (ndarray R)
}.

Record session_data := mkSession { s_graph : nat; s_closed : bool }.

Inductive event :=
| EvResetDefaultGraph
| EvClose (s : nat)
| EvNewSession (s g : nat)
| EvRunInit (s : nat)
| EvRun (s : nat) (fetches : list (option tensor)) (feed : feed_dict).

(** The state of the backend: graphs and sessions are objects identified
    by their index, sessions are never removed, only closed. *)
Record world := mkWorld {
  w_backend : backend;
  w_graphs : list graph_data;
  w_sessions : list session_data;
  w_trace : list event
}.

(** One estimator object ([self._session]) and the backend it runs on. *)
Record state := mkState { _session : option nat; tf : world }.

Definition M (A : Type) : Type := state -> result A * state.

Definition ret {A} (a : A) : M A := fun st => (Ok a, st).
Definition bind {A B} (m : M A) (k : A -> M B) : M B :=
  fun st => match m st with
            | (Ok a, st') => k a st'
            | (Raise e, st') => (Raise e, st')
            end.
Definition raise {A} (e : exn) : M A := fun st => (Raise e, st).
Definition lift {A} (r : result A) : M A := fun st => (r, st).

#[global] Instance M_ret : MRet M := @ret.
#[global] Instance M_bind : MBind M := fun A B k m => bind m k.

Definition get_state : M state := fun st => (Ok st, st).
Definition modify_world (f : world -> world) : M () :=
  fun st => (Ok (), {| _session := _session st; tf := f (tf st) |}).
Definition set_session (s : option nat) : M () :=
  fun st => (Ok (), {| _session := s; tf := tf st |}).

Definition log (ev : event) : M () :=
  modify_world (fun w =>
    {| w_backend := w_backend w; w_graphs := w_graphs w;
       w_sessions := w_sessions w; w_trace := w_trace w ++ [ev] |}).

Definition modify_graph (g : nat) (f : graph_data -> graph_data) : M () :=
  modify_world (fun w =>
    {| w_backend := w_backend w; w_graphs := alter f g (w_graphs w);
       w_sessions := w_sessions w; w_trace := w_trace w |}).

Definition is_live (w : world) (s : nat) : Prop :=
  exists g, w_sessions w !! s = Some {| s_graph := g; s_closed := false |}.

(** [for x in xs: acc = body(x, acc)]. *)
Fixpoint for_each {A S} (body : A -> S -> M S) (xs : list A) (acc : S) : M S :=
  match xs with
  | [] => ret acc
  | x :: xs' => bind (body x acc) (for_each body xs')
  end.

(** *** Graph construction *)

(** [tf.reset_default_graph()]. *)
Definition tf_reset_default_graph : M () := log EvResetDefaultGraph.

(** [with tf.Graph().as_default() as graph]: a new, empty graph. *)
Definition tf_Graph : M nat :=
  st ← get_state;
  let g := length (w_graphs (tf st)) in
  modify_world (fun w =>
    {| w_backend := w_backend w;
       w_graphs := w_graphs w ++ [mkGraph ∅ 0 empty_model];
       w_sessions := w_sessions w; w_trace := w_trace w |});;
  mret g.

(** The effect of the user's callback on the graph it builds in: its
    operations are entered by name, operation [i] having the outputs
    [TModel g i 0], [TModel g i 1], ... *)
Definition model_table (g : nat) (m : model) : list (string * operation) :=
  imap (fun i '(name, shapes) =>
          (name, mkOp (imap (fun idx s => TModel g i idx s) shapes))) (m_ops m).

Definition install_model (g : nat) (m : model) : M () :=
  modify_graph g (fun gd =>
    {| g_ops := list_to_map (model_table g m) ∪ g_ops gd;
       g_next := g_next gd; g_model := m |}).

(** The backend files the operations behind a new tensor. *)
Definition register (base : string) (t : tensor) : M () :=
  st ← get_state;
  modify_graph (t_graph t) (fun gd =>
    {| g_ops := be_register (w_backend (tf st)) base t (g_ops gd);
       g_next := g_next gd; g_model := g_model gd |}).

(** [graph.get_operation_by_name(name)]. *)
Definition get_operation_by_name (g : nat) (name : string) : M operation :=
  st ← get_state;
  match w_graphs (tf st) !! g with
  | None => raise RuntimeError
  | Some gd =>
      match g_ops gd !! name with
      | Some op => mret op
      | None => raise (KeyError name)
      end
  end.

(** [tf.placeholder(tf.float32, shape=..., name=...)] in graph [g]. *)
Definition tf_placeholder (g : nat) (shape : list Z) (name : string) : M tensor :=
  if forallb (fun d => 0 <=? d) shape then
    st ← get_state;
    match w_graphs (tf st) !! g with
    | None => raise RuntimeError
    | Some gd =>
        let t := TPlaceholder g (g_next gd) (Z.to_N <$> shape) in
        modify_graph g (fun gd =>
          {| g_ops := g_ops gd; g_next := S (g_next gd); g_model := g_model gd |});;
        register name t;;
        mret t
    end
  else raise ValueError.

(** [tf.reduce_mean(t, axis, keep_dims=...)]. *)
Definition tf_reduce_mean (t : tensor) (axis : option Z) (keep_dims : bool)
  : M tensor :=
  _ ← lift (reduce_shape (get_shape t) axis keep_dims);
  let r := TReduceMean t axis keep_dims in
  register "Mean" r;;
  mret r.

(** [a * b] on tensors. *)
Definition tf_mul (a b : tensor) : M tensor :=
  if decide (t_graph a = t_graph b) then
    _ ← lift (broadcast_shape (get_shape a) (get_shape b));
    let r := TMul a b in
    register "mul" r;;
    mret r
  else raise ValueError.

(** Whether [y] depends on [x] in the graph. *)
Fixpoint connected (m : model) (y x : tensor) : bool :=
  if decide (y = x) then true else
  match y with
  | TPlaceholder _ _ _ => false
  | TModel _ id idx _ => m_connected m id idx x
  | TReduceMean a _ _ => connected m a x
  | TMul a b => connected m a x || connected m b x
  | TGrad y' x' => connected m y' x || connected m x' x
  end.

(** [tf.gradients(y, xs)]: one entry per element of [xs], [None] where
    [y] does not depend on it. *)
Definition tf_gradients (y : tensor) (xs : list tensor)
  : M (list (option tensor)) :=
  if forallb (fun x => bool_decide (t_graph x = t_graph y)) xs then
    st ← get_state;
    match w_graphs (tf st) !! t_graph y with
    | None => raise RuntimeError
    | Some gd =>
        let gs := (fun x => if connected (g_model gd) y x
                            then Some (TGrad y x) else None) <$> xs in
        for_each (fun g (_ : ()) =>
                    match g with
                    | Some t => register "gradients" t
                    | None => mret ()
                    end) gs ();;
        mret gs
    end
  else raise ValueError.

(** *** Sessions *)

(** [tf.Session(graph=graph)]. *)
Definition tf_Session (g : nat) : M nat :=
  st ← get_state;
  let s := length (w_sessions (tf st)) in
  modify_world (fun w =>
    {| w_backend := w_backend w; w_graphs := w_graphs w;
       w_sessions := w_sessions w ++ [mkSession g false];
       w_trace := w_trace w |});;
  log (EvNewSession s g);;
  mret s.

(** [session.close()]; closing a closed session is allowed. *)
Definition session_close (s : nat) : M () :=
  modify_world (fun w =>
    {| w_backend := w_backend w; w_graphs := w_graphs w;
       w_sessions := alter (fun sd => mkSession (s_graph sd) true) s (w_sessions w);
       w_trace := w_trace w |});;
  log (EvClose s).

(** The session behind a handle, refused once it is closed. *)
Definition open_session (s : nat) : M graph_data :=
  st ← get_state;
  match w_sessions (tf st) !! s with
  | None => raise RuntimeError
  | Some sd =>
      if s_closed sd then raise RuntimeError
      else match w_graphs (tf st) !! s_graph sd with
           | None => raise RuntimeError
           | Some gd => mret gd
           end
  end.

(** [session.run(tf.global_variables_initializer())]. *)
Definition session_run_init (s : nat) : M () :=
  log (EvRunInit s);;
  gd ← open_session s;
  match m_init (g_model gd) with
  | None => mret ()
  | Some msg => raise (UserError msg)
  end.

(** The value of a tensor under a feed.  A fed tensor has the fed value,
    a placeholder that is not fed has none, an output of the model has
    the value the model gives it, and a gradient is the backend's
    derivative of [y] as a function of the value of [x]. *)
Fixpoint eval (be : backend) (m : model) (feed : feed_dict) (t : tensor)
  : result (value R) :=
  match dict_get feed t with
  | Some v => Ok (VArr v)
  | None =>
      match t with
      | TPlaceholder _ _ _ => Raise InvalidArgumentError
      | TModel _ id idx _ => VArr <$> m_value m feed id idx
      | TReduceMean a axis keep_dims =>
          v ← eval be m feed a; np_mean v axis keep_dims
      | TMul a b =>
          u ← eval be m feed a; v ← eval be m feed b; np_multiply u v
      | TGrad y x =>
          vx ← eval be m feed x;
          x0 ← as_array vx;
          VArr <$> be_grad be
            (fun v => r ← eval be m (dict_set feed x v) y; as_scalar r) x0
      end
  end.

(** A fed array must fit the static shape of the tensor it is fed to. *)
Definition shape_fits (a : ndarray R) (t : tensor) : bool :=
  match get_shape t with
  | None => true
  | Some dims =>
      let '(n, h, w, c) := nd_shape a in
      bool_decide (length dims = 4%nat) &&
      forallb (fun '(d, k) => match d with
                              | Some x => (x =? N.of_nat k)%N
                              | None => true
                              end) (zip dims [n; h; w; c])
  end.

(** [session.run(fetches, feed_dict=feed)] for a list of fetches: the
    session must be open, the feed keys and the fetches must be tensors
    of its graph, and all fetches are evaluated by this one call. *)
Definition session_run (s : nat) (fetches : list (option tensor))
    (feed : feed_dict) : M (list (value R)) :=
  log (EvRun s fetches feed);;
  st ← get_state;
  match w_sessions (tf st) !! s with
  | None => raise RuntimeError
  | Some sd =>
      if s_closed sd then raise RuntimeError
      else if negb (forallb (fun kv => bool_decide (t_graph kv.1 = s_graph sd)) feed)
      then raise TypeError
      else if negb (forallb (fun kv => shape_fits kv.2 kv.1) feed)
      then raise ValueError
      else
        ts ← lift (forM (fun f => match f with
                                   | None => Raise TypeError
                                   | Some t =>
                                       if decide (t_graph t = s_graph sd)
                                       then Ok t else Raise ValueError
                                   end) fetches);
        match w_graphs (tf st) !! s_graph sd with
        | None => raise RuntimeError
        | Some gd =>
            lift (forM (eval (w_backend (tf st)) (g_model gd) feed) ts)
        end
  end.

(** ** The program *)

(** [_define_fm_gradient]. *)
Definition _define_fm_gradient
    (input_tensor output_tensor receptive_field_mask : tensor)
  : M (option tensor) :=
  x ← tf_reduce_mean output_tensor (Some (-1)) true;
  fake_loss ← tf_mul x receptive_field_mask;
  fake_loss ← tf_reduce_mean fake_loss None false;
  gs ← tf_gradients fake_loss [input_tensor];
  lift (py_getitem gs 0).

(** Modelled from the spec: the fields that the base class
    [ReceptiveField] of [receptivefield/base.py], which is not among the
    sources, keeps after "Prepare: obtain probe_fn, input_shape,
    output_shapes (one per feature map)". *)
Record extractor := mkExtractor {
  _input_shape : GridShape;
  _output_shapes : list GridShape;
  _gradient_function : list (ndarray R) -> ndarray R -> M (list (value R))
}.

(** Modelled from the spec: [num_feature_maps] of the base class, the
    number of output shapes, "one per feature map". *)
Definition num_feature_maps (rf : extractor) : nat :=
  length (_output_shapes rf).

(** One turn of the loop of [_get_gradient_from_grid_points]. *)
Definition probe_mask (rf : extractor) (points : list GridPoint)
    (intensity : R) (fm : nat) : result (ndarray R) :=
  s ← py_getitem (_output_shapes rf) fm;
  let output_shape := replace_n s 1 in
  output_feature_map ← np_zeros output_shape;
  p ← py_getitem points fm;
  nd_set_yx0 output_feature_map (gp_y p) (gp_x p) intensity.

(** The two arguments [_get_gradient_from_grid_points] computes for the
    gradient function: the masks and the base input. *)
Definition probe_arguments (rf : extractor) (points : list GridPoint)
    (intensity : R) : result (list (ndarray R) * ndarray R) :=
  let input_shape := replace_n (_input_shape rf) 1 in
  output_feature_maps ←
    forM (probe_mask rf points intensity) (seq 0 (num_feature_maps rf));
  base ← np_zeros input_shape;
  Ok (output_feature_maps, base).

(** [_get_gradient_from_grid_points]. *)
Definition _get_gradient_from_grid_points (rf_extractor : extractor)
    (points : list GridPoint) (intensity : R) : M (list (value R)) :=
  args ← lift (probe_arguments rf_extractor points intensity);
  _gradient_function rf_extractor args.1 args.2.

(** What the inner function [gradient_fn] closes over, apart from
    [self]. *)
Record closure := mkClosure {
  receptive_field_masks : list tensor;
  grads : list (option tensor);
  input_tensor : tensor
}.

(** [gradient_fn]; [self._session] is read when the function is called. *)
Definition gradient_fn (cl : closure) (fm_masks : list (ndarray R))
    (input_image : ndarray R) : M (list (value R)) :=
  let fetch_dict := dict_of (zip (receptive_field_masks cl) fm_masks) in
  let fetch_dict := dict_set fetch_dict (input_tensor cl) input_image in
  st ← get_state;
  match _session st with
  | None => raise AttributeError
  | Some s => session_run s (grads cl) fetch_dict
  end.

(** The three lists a prepare call fills in its loop. *)
Record fm_lists := mkLists {
  l_grads : list (option tensor);
  l_masks : list tensor;
  l_shapes : list (Z * Z * Z * Z)
}.

(** The body of the loop over the output tensors, from the resolved
    tensor on; it is the same in both classes. *)
Definition fm_body (graph : nat) (input_tensor output_tensor : tensor)
    (acc : fm_lists) : M fm_lists :=
  output_shape ← lift (_get_tensor_shape output_tensor);
  d1 ← lift (py_getitem output_shape 1);
  d2 ← lift (py_getitem output_shape 2);
  let output_shape := (1, d1, d2, 1) in
  receptive_field_mask ← tf_placeholder graph [1; d1; d2; 1] "grid";
  grad ← _define_fm_gradient input_tensor output_tensor receptive_field_mask;
  mret {| l_grads := l_grads acc ++ [grad];
          l_masks := l_masks acc ++ [receptive_field_mask];
          l_shapes := l_shapes acc ++ [output_shape] |}.

Definition GridShape_of (s : Z * Z * Z * Z) : GridShape :=
  let '(n, h, w, c) := s in mkGridShape n h w c.

(** The guard both prepare methods start with. *)
Definition close_previous : M () :=
  st ← get_state;
  match _session st with
  | Some s => tf_reset_default_graph;; session_close s
  | None => mret ()
  end.

(** The end of both prepare methods: session, initialisation, result. *)
Definition finish (graph : nat) (input_tensor : tensor) (input_shape : list Z)
    (acc : fm_lists) : M (closure * GridShape * list GridShape) :=
  s ← tf_Session graph;
  set_session (Some s);;
  session_run_init s;;
  gi ← lift (GridShape_star input_shape);
  mret (mkClosure (l_masks acc) (l_grads acc) input_tensor,
        gi, GridShape_of <$> l_shapes acc).

(** A call of the user's callback: it returns or raises its own error. *)
Definition call_user {A} (r : string + A) : M A :=
  match r with inl msg => raise (UserError msg) | inr a => mret a end.

(** [TFReceptiveField._prepare_gradient_func] from the new graph to the
    loop: the callback builds the model from the image shape, and the
    input tensor is found by name. *)
Definition build_by_name (_model_func : ImageShape -> string + model)
    (input_shape : ImageShape) (input_tensor : string)
  : M (nat * tensor * list Z) :=
  graph ← tf_Graph;
  m ← call_user (_model_func input_shape);
  install_model graph m;;
  op ← get_operation_by_name graph input_tensor;
  input_tensor ← lift (py_getitem (op_outputs op) 0);
  input_shape ← lift (_get_tensor_shape input_tensor);
  mret (graph, input_tensor, input_shape).

(** One turn of its loop: the output tensor is found by name. *)
Definition by_name_step (graph : nat) (input_tensor : tensor)
    (output_tensor : string) (acc : fm_lists) : M fm_lists :=
  op ← get_operation_by_name graph output_tensor;
  output_tensor ← lift (py_getitem (op_outputs op) 0);
  fm_body graph input_tensor output_tensor acc.

(** [TFReceptiveField._prepare_gradient_func]. *)
Definition TFReceptiveField_prepare_gradient_func
    (_model_func : ImageShape -> string + model)
    (input_shape : ImageShape) (input_tensor : string)
    (output_tensors : list string)
  : M (closure * GridShape * list GridShape) :=
  close_previous;;
  o ← build_by_name _model_func input_shape input_tensor;
  acc ← for_each (by_name_step o.1.1 o.1.2) output_tensors (mkLists [] [] []);
  finish o.1.1 o.1.2 o.2 acc.

(** [TFFeatureMapsReceptiveField._prepare_gradient_func] from the new
    graph to the loop: the callback receives the input placeholder and
    returns the feature maps. *)
Definition build_by_construction
    (_model_func : tensor -> string + model * list tensor)
    (input_shape : ImageShape)
  : M (nat * tensor * list Z * list tensor) :=
  graph ← tf_Graph;
  input_tensor ← tf_placeholder graph
    [1; is_h input_shape; is_w input_shape; is_c input_shape] "input_image";
  input_shape ← lift (_get_tensor_shape input_tensor);
  mf ← call_user (_model_func input_tensor);
  install_model graph mf.1;;
  mret (graph, input_tensor, input_shape, mf.2).

(** [TFFeatureMapsReceptiveField._prepare_gradient_func]. *)
Definition TFFeatureMapsReceptiveField_prepare_gradient_func
    (_model_func : tensor -> string + model * list tensor)
    (input_shape : ImageShape)
  : M (closure * GridShape * list GridShape) :=
  close_previous;;
  o ← build_by_construction _model_func input_shape;
  acc ← for_each (fm_body o.1.1.1 o.1.1.2) o.2 (mkLists [] [] []);
  finish o.1.1.1 o.1.1.2 o.1.2 acc.

(** A prepare call on an estimator of either class, with the callback
    the estimator was constructed with. *)
Inductive prepare_call :=
| ByName (_model_func : ImageShape -> string + model)
    (input_shape : ImageShape) (input_tensor : string)
    (output_tensors : list string)
| ByConstruction (_model_func : tensor -> string + model * list tensor)
    (input_shape : ImageShape).

Definition _prepare_gradient_func (c : prepare_call)
  : M (closure * GridShape * list GridShape) :=
  match c with
  | ByName f sh i os => TFReceptiveField_prepare_gradient_func f sh i os
  | ByConstruction f sh => TFFeatureMapsReceptiveField_prepare_gradient_func f sh
  end.

(** Modelled from the spec: what the base class keeps of a prepare
    result ("Obtain probe_fn, input_shape, output_shapes"). *)
Definition built (r : closure * GridShape * list GridShape) : extractor :=
  {| _input_shape := r.1.2; _output_shapes := r.2;
     _gradient_function := gradient_fn r.1.1 |}.

(** ** Vocabulary of the statements *)

(** The all-zeros image of a shape. *)
Definition zero_image (s : GridShape) (a : ndarray R) : Prop :=
  nd_shape a = (Z.to_nat (gs_n s), Z.to_nat (gs_h s),
                Z.to_nat (gs_w s), Z.to_nat (gs_c s)) /\
  nd_data a = replicate (Z.to_nat (gs_n s))
                (replicate (Z.to_nat (gs_h s))
                   (replicate (Z.to_nat (gs_w s))
                      (replicate (Z.to_nat (gs_c s)) r0))).


(** The final state of every run of [m] is related to its initial one. *)
Definition steps (Rel : state -> state -> Prop) {A} (m : M A) : Prop :=
  forall st, Rel st (m st).2.

(** Graph construction: the estimator, the sessions, the trace and the
    backend stay as they are, and no graph disappears. *)
Definition builds (st st' : state) : Prop :=
  _session st' = _session st /\
  w_sessions (tf st') = w_sessions (tf st) /\
  w_trace (tf st') = w_trace (tf st) /\
  w_backend (tf st') = w_backend (tf st) /\
  (length (w_graphs (tf st)) <= length (w_graphs (tf st')))%nat.

(** The scalar tensor [_define_fm_gradient] differentiates. *)
Definition fake_loss (output_tensor receptive_field_mask : tensor) : tensor :=
  TReduceMean (TMul (TReduceMean output_tensor (Some (-1)) true)
                    receptive_field_mask) None false.

(** The state [close_previous] leaves. *)
Definition after_close (st : state) : state :=
  match _session st with
  | None => st
  | Some s =>
      {| _session := Some s;
         tf := {| w_backend := w_backend (tf st);
                  w_graphs := w_graphs (tf st);
                  w_sessions := alter (fun sd => mkSession (s_graph sd) true) s
                                  (w_sessions (tf st));
                  w_trace := (w_trace (tf st) ++ [EvResetDefaultGraph]) ++ [EvClose s] |} |}
  end.

(** The state [finish] leaves when called for graph [g]. *)
Definition after_finish (g : nat) (st : state) : state :=
  let s := length (w_sessions (tf st)) in
  {| _session := Some s;
     tf := {| w_backend := w_backend (tf st);
              w_graphs := w_graphs (tf st);
              w_sessions := w_sessions (tf st) ++ [mkSession g false];
              w_trace := ((w_trace (tf st)) ++ [EvNewSession s g]) ++ [EvRunInit s] |} |}.

(** A state with other graphs. *)
Definition with_graphs (gs : list graph_data) (st : state) : state :=
  {| _session := _session st;
     tf := {| w_backend := w_backend (tf st); w_graphs := gs;
              w_sessions := w_sessions (tf st); w_trace := w_trace (tf st) |} |}.

(** Between the two states only name tables of graphs changed: the
    graphs are the same in number, each with its model and its count of
    placeholders. *)
Definition table_only (st st' : state) : Prop :=
  builds st st' /\
  forall g, (fun gd => (g_next gd, g_model gd)) <$> w_graphs (tf st') !! g
            = (fun gd => (g_next gd, g_model gd)) <$> w_graphs (tf st) !! g.

(** What one turn of the loop adds for the output tensor [ot]: the shape
    [(1, h, w, 1)] read off the static shape of [ot], a mask placeholder
    of that shape (the placeholder number [id] of its graph), and the
    gradient of the fake loss with respect to the input tensor, [None]
    when the loss does not depend on it.  [m] is the model of the
    graph. *)
Definition fm_entry (m : model) (it : tensor) (id : nat) (ot : tensor)
    (grad : option tensor) (mask : tensor) (sh : Z * Z * Z * Z) : Prop :=
  exists dims d1 d2,
    _get_tensor_shape ot = Ok dims /\
    dims !! 1%nat = Some d1 /\ dims !! 2%nat = Some d2 /\
    sh = (1, d1, d2, 1) /\
    mask = TPlaceholder (t_graph it) id [1; Z.to_N d1; Z.to_N d2; 1]%N /\
    t_graph ot = t_graph it /\
    grad = if connected m (fake_loss ot mask) it
           then Some (TGrad (fake_loss ot mask) it) else None.

(** The lists of a loop, entry by entry, for the output tensors [outs];
    the mask placeholders are numbered from [id] on. *)
Fixpoint fm_entries (m : model) (it : tensor) (id : nat) (outs : list tensor)
    (gs : list (option tensor)) (ms : list tensor)
    (shs : list (Z * Z * Z * Z)) : Prop :=
  match outs, gs, ms, shs with
  | [], [], [], [] => True
  | ot :: outs', g :: gs', mask :: ms', sh :: shs' =>
      fm_entry m it id ot g mask sh /\
      fm_entries m it (S id) outs' gs' ms' shs'
  | _, _, _, _ => False
  end.

(** The name resolves to the tensor in graph [g] as it stands in [st]:
    [graph.get_operation_by_name(name).outputs[0]]. *)
Definition resolves_in (g : nat) (st : state) (name : string) (ot : tensor)
  : Prop :=
  exists gd op, w_graphs (tf st) !! g = Some gd /\
    g_ops gd !! name = Some op /\ op_outputs op !! 0%nat = Some ot.

(** A successful run of the loop over tensors, turn by turn. *)
Inductive fm_loop (graph : nat) (it : tensor)
  : list tensor -> fm_lists -> state -> fm_lists -> state -> Prop :=
| fm_loop_nil acc st : fm_loop graph it [] acc st acc st
| fm_loop_cons ot outs acc st acc1 st1 acc2 st2 :
    fm_body graph it ot acc st = (Ok acc1, st1) ->
    fm_loop graph it outs acc1 st1 acc2 st2 ->
    fm_loop graph it (ot :: outs) acc st acc2 st2.

(** A successful run of the loop over names: each name resolves, in the
    graph as the loop finds it at that turn, to the tensor at the same
    position of [outs]. *)
Inductive by_name_run (graph : nat) (it : tensor)
  : list string -> list tensor -> fm_lists -> state -> fm_lists -> state -> Prop :=
| by_name_nil acc st : by_name_run graph it [] [] acc st acc st
| by_name_cons name names ot outs acc st acc1 st1 acc2 st2 :
    resolves_in graph st name ot ->
    fm_body graph it ot acc st = (Ok acc1, st1) ->
    by_name_run graph it names outs acc1 st1 acc2 st2 ->
    by_name_run graph it (name :: names) (ot :: outs) acc st acc2 st2.

(** The output tensors of a prepare call started in [st], given the
    input tensor [it] it found or made: for the name-based class the
    tensors the names resolve to while the loop runs, for the other
    class the feature maps the callback returns. *)
Definition resolved_outputs (c : prepare_call) (st : state) (it : tensor)
    (outs : list tensor) : Prop :=
  match c with
  | ByName f sh i os =>
      exists graph ish st1 acc st2,
        build_by_name f sh i (after_close st) = (Ok (graph, it, ish), st1) /\
        by_name_run graph it os outs (mkLists [] [] []) st1 acc st2
  | ByConstruction f sh =>
      exists m,
        it = TPlaceholder (length (w_graphs (tf st))) 0
               (Z.to_N <$> [1; is_h sh; is_w sh; is_c sh]) /\
        f it = inr (m, outs)
  end.

(** The feed dictionary [gradient_fn] builds. *)
Definition fetch_dict (cl : closure) (fm_masks : list (ndarray R))
    (input_image : ndarray R) : feed_dict :=
  dict_set (dict_of (zip (receptive_field_masks cl) fm_masks))
    (input_tensor cl) input_image.

(** A state with one more event in the trace. *)
Definition logged (ev : event) (st : state) : state :=
  {| _session := _session st;
     tf := {| w_backend := w_backend (tf st); w_graphs := w_graphs (tf st);
              w_sessions := w_sessions (tf st);
              w_trace := w_trace (tf st) ++ [ev] |} |}.

(** The channel vector and the entry of an array at given indices. *)
Definition pixel (a : ndarray R) (b i j : nat) : list R :=
  default [] (img ← nd_data a !! b; row ← img !! i; row !! j).

Definition entry (a : ndarray R) (b i j ch : nat) : R :=
  default r0 (nd_get a b i j ch).

(** The scalar of the specification, "mean(channel-reduced-output *
    mask)", written out index by index for an output of shape
    [(n, h, w, c)] and a mask of shape [(1, h, w, 1)]: the mean, over
    the batch entries [b] and the positions [(i, j)], of the channel
    mean of the output at [(b, i, j)] times the mask at [(0, i, j, 0)]. *)
Definition spec_fake_loss (out mask : ndarray R) : R :=
  let '(n, h, w, _) := nd_shape out in
  mean (b ← seq 0 n; i ← seq 0 h; j ← seq 0 w;
        [rmul (mean (pixel out b i j)) (entry mask 0 i j 0)]).

(** None of the tensors [_define_fm_gradient] makes on the way to the
    fake loss is overridden by the feed. *)
Definition unfed (feed : feed_dict) (ot mask : tensor) : Prop :=
  dict_get feed (TReduceMean ot (Some (-1)) true) = None /\
  dict_get feed (TMul (TReduceMean ot (Some (-1)) true) mask) = None /\
  dict_get feed (fake_loss ot mask) = None.



(** What a client does with an estimator object: a prepare call, or a
    call of a gradient function obtained from an earlier prepare call.
    An exception of a call leaves the object as the call left it. *)
Inductive call :=
| Prepare (c : prepare_call)
| Probe (cl : closure) (fm_masks : list (ndarray R)) (input_image : ndarray R).

Definition run_call (k : call) (st : state) : state :=
  match k with
  | Prepare c => (_prepare_gradient_func c st).2
  | Probe cl fm_masks img => (gradient_fn cl fm_masks img st).2
  end.

Definition run_calls (ks : list call) (st : state) : state :=
  foldl (fun st k => run_call k st) st ks.

(** The sessions that are open after an event, given those open before. *)
Definition live_step (ev : event) (live : list nat) : list nat :=
  match ev with
  | EvNewSession s _ => live ++ [s]
  | EvClose s => filter (fun x => x <> s) live
  | _ => live
  end.

Definition live_after (evs : list event) (live : list nat) : list nat :=
  foldl (fun l ev => live_step ev l) live evs.

(** Replaying a trace from the open sessions [live]: at every moment at
    most one session is open, and a session is only created when none
    is open. *)
Fixpoint at_most_one (evs : list event) (live : list nat) : Prop :=
  (length live <= 1)%nat /\
  match evs with
  | [] => True
  | ev :: evs' =>
      match ev with EvNewSession _ _ => live = [] | _ => True end /\
      at_most_one evs' (live_step ev live)
  end.

(** The events with which a prepare call starts in [st]. *)
Definition close_events (st : state) : list event :=
  match _session st with
  | Some s => [EvResetDefaultGraph; EvClose s]
  | None => []
  end.

(** What holds between the calls on an estimator that started without a
    session when the backend had [n0] sessions. *)
Definition session_inv (n0 : nat) (st : state) (emitted : list event) : Prop :=
  at_most_one emitted [] /\
  (forall x, x ∈ live_after emitted [] -> _session st = Some x) /\
  (forall s, is_live (tf st) s -> (s < n0)%nat \/ _session st = Some s).



(** *** Vocabulary of the further properties *)

(** The position [a[:, y, x, 0] = v] can address in an array of the
    batch-1 shape of [s]: the array exists, has a channel 0, and the
    coordinates are indices of Python, negative ones counting from the
    end. *)
Definition addressable (s : GridShape) (p : GridPoint) : Prop :=
  0 <= gs_h s /\ 0 <= gs_w s /\ 0 < gs_c s /\
  - gs_h s <= gp_y p < gs_h s /\ - gs_w s <= gp_x p < gs_w s.

(** Every feature map has a point it can address, and the input shape
    is the shape of an array. *)
Definition probe_ok (rf : extractor) (points : list GridPoint) : Prop :=
  0 <= gs_h (_input_shape rf) /\ 0 <= gs_w (_input_shape rf) /\
  0 <= gs_c (_input_shape rf) /\
  forall fm s, _output_shapes rf !! fm = Some s ->
    exists p, points !! fm = Some p /\ addressable s p.

(** The array of a batch-1 shape with [v] at one position of channel 0. *)
Definition impulse (s : GridShape) (iy ix : nat) (v : R) : ndarray R :=
  {| nd_shape := (1%nat, Z.to_nat (gs_h s), Z.to_nat (gs_w s), Z.to_nat (gs_c s));
     nd_data := map (alter (alter (<[0%nat := v]>) ix) iy)
                  (replicate 1 (replicate (Z.to_nat (gs_h s))
                     (replicate (Z.to_nat (gs_w s))
                        (replicate (Z.to_nat (gs_c s)) r0)))) |}.





(** ** Small instances, for the concrete facts at the end of the file *)

Definition nd_const (n h w c : nat) (v : R) : ndarray R :=
  {| nd_shape := (n, h, w, c);
     nd_data := replicate n (replicate h (replicate w (replicate c v))) |}.

(** A backend that files every new operation under the base name of the
    call and differentiates every function to its argument. *)
Definition ex_backend : backend :=
  {| be_register := fun base t tbl => <[base := mkOp [t]]> tbl;
     be_grad := fun f x => Ok x |}.

(** A fresh estimator on a backend without graphs and sessions. *)
Definition ex_state : state := mkState None (mkWorld ex_backend [] [] []).

(** A model with an input of batch size 2 named "input" and a feature
    map named "conv" that depends on it. *)
Definition ex_model : model :=
  {| m_ops := [("input"%string, [Some [Some 2; Some 3; Some 3; Some 2]%N]);
               ("conv"%string, [Some [Some 2; Some 3; Some 3; Some 4]%N])];
     m_value := fun feed id idx =>
                  match id with
                  | 1%nat => Ok (nd_const 2 3 3 4 r0)
                  | _ => Raise InvalidArgumentError
                  end;
     m_connected := fun id idx x => bool_decide (id = 1%nat);
     m_init := None |}.

Definition ex_by_name : prepare_call :=
  ByName (fun _ => inr ex_model) (mkImageShape 3 3 2) "input" ["conv"%string].

(** A callback that returns one feature map of shape (1, 2, 2, 8). *)
Definition ex_feature_maps (it : tensor) : string + model * list tensor :=
  inr ({| m_ops := [("fm"%string, [Some [Some 1; Some 2; Some 2; Some 8]%N])];
          m_value := fun feed id idx => Ok (nd_const 1 2 2 8 r0);
          m_connected := fun id idx x => true;
          m_init := None |},
       [TModel (t_graph it) 0 0 (Some [Some 1; Some 2; Some 2; Some 8]%N)]).

Definition ex_by_construction : prepare_call :=
  ByConstruction ex_feature_maps (mkImageShape 4 4 3).

(** An estimator with two feature maps whose gradient function returns
    nothing. *)
Definition ex_extractor : extractor :=
  {| _input_shape := mkGridShape 2 4 4 3;
     _output_shapes := [mkGridShape 1 2 2 1; mkGridShape 1 3 3 1];
     _gradient_function := fun _ _ => mret [] |}.

Definition ex_points : list GridPoint := [mkGridPoint 0 1; mkGridPoint 2 2].

(** A graph holding [ex_model], with its input, its feature map and a
    mask placeholder for it. *)
Definition ex_graph_state : state :=
  mkState None (mkWorld ex_backend [mkGraph ∅ 1 ex_model] [] []).
Definition ex_input : tensor :=
  TModel 0 0 0 (Some [Some 2; Some 3; Some 3; Some 2]%N).
Definition ex_output : tensor :=
  TModel 0 1 0 (Some [Some 2; Some 3; Some 3; Some 4]%N).
Definition ex_mask : tensor := TPlaceholder 0 0 [1; 3; 3; 1]%N.

(** Points given from the end of each grid of [ex_extractor]. *)
Definition ex_end_points : list GridPoint :=
  [mkGridPoint (-1) (-1); mkGridPoint 0 (-3)].

(** The example estimator with other batch sizes. *)
Definition ex_extractor_batch : extractor :=
  {| _input_shape := mkGridShape 7 4 4 3;
     _output_shapes := [mkGridShape 5 2 2 1; mkGridShape 1 3 3 1];
     _gradient_function := fun _ _ => mret [] |}.


(** A model whose input has three dimensions. *)
Definition ex_rank3 : model :=
  {| m_ops := [("input"%string, [Some [Some 3; Some 3; Some 2]%N])];
     m_value := fun feed id idx => Raise InvalidArgumentError;
     m_connected := fun id idx x => false;
     m_init := None |}.

(** A callback whose feature map does not depend on the input. *)
Definition ex_disconnected_maps (it : tensor) : string + model * list tensor :=
  inr ({| m_ops := [("fm"%string, [Some [Some 1; Some 2; Some 2; Some 8]%N])];
          m_value := fun feed id idx => Ok (nd_const 1 2 2 8 r0);
          m_connected := fun id idx x => false;
          m_init := None |},
       [TModel (t_graph it) 0 0 (Some [Some 1; Some 2; Some 2; Some 8]%N)]).

(** A callback that returns a feature map of two dimensions. *)
Definition ex_flat_maps (it : tensor) : string + model * list tensor :=
  inr ({| m_ops := [("fm"%string, [Some [Some 1; Some 8]%N])];
          m_value := fun feed id idx => Raise InvalidArgumentError;
          m_connected := fun id idx x => true;
          m_init := None |},
       [TModel (t_graph it) 0 0 (Some [Some 1; Some 8]%N)]).

(** The example estimator after a prepare call. *)
Definition ex_prepared : state :=
  (_prepare_gradient_func ex_by_construction ex_state).2.

(** ** Lists of results *)

Lemma forM_Ok_inv {A B} (f : A -> result B) xs ys :
  forM f xs = Ok ys -> Forall2 (fun x y => f x = Ok y) xs ys.
Proof.
  revert ys. induction xs as [|x xs IH]; intros ys Hf; simpl in Hf.
  - injection Hf as <-. constructor.
  - destruct (f x) as [y|e] eqn:Hx; simpl in Hf; [|discriminate].
    destruct (forM f xs) as [ys'|e] eqn:Hxs; simpl in Hf; [|discriminate].
    injection Hf as <-. constructor; auto.
Qed.

Lemma forM_Ok_intro {A B} (f : A -> result B) xs ys :
  Forall2 (fun x y => f x = Ok y) xs ys -> forM f xs = Ok ys.
Proof.
  induction 1 as [|x y xs ys Hx _ IH]; simpl; [done|].
  rewrite Hx. simpl. rewrite IH. done.
Qed.

Lemma forM_total {A B} (f : A -> result B) xs :
  (forall x, x ∈ xs -> exists y, f x = Ok y) -> exists ys, forM f xs = Ok ys.
Proof.
  induction xs as [|x xs IH]; intros Hall; simpl; [by eexists|].
  destruct (Hall x) as [y Hy]; [by left|]. rewrite Hy. simpl.
  destruct IH as [ys Hys]; [intros z Hz; apply Hall; by right|].
  rewrite Hys. simpl. by eexists.
Qed.

(** ** The probing step *)


Lemma np_zeros_Ok (s : GridShape) :
  0 <= gs_n s -> 0 <= gs_h s -> 0 <= gs_w s -> 0 <= gs_c s ->
  np_zeros s =
    Ok {| nd_shape := (Z.to_nat (gs_n s), Z.to_nat (gs_h s),
                       Z.to_nat (gs_w s), Z.to_nat (gs_c s));
          nd_data := replicate (Z.to_nat (gs_n s))
                       (replicate (Z.to_nat (gs_h s))
                          (replicate (Z.to_nat (gs_w s))
                             (replicate (Z.to_nat (gs_c s)) r0))) |}.
Proof.
  intros Hn Hh Hw Hc. unfold np_zeros.
  replace (gs_n s <? 0) with false by (symmetry; apply Z.ltb_ge; lia).
  replace (gs_h s <? 0) with false by (symmetry; apply Z.ltb_ge; lia).
  replace (gs_w s <? 0) with false by (symmetry; apply Z.ltb_ge; lia).
  replace (gs_c s <? 0) with false by (symmetry; apply Z.ltb_ge; lia).
  done.
Qed.

Lemma np_zeros_inv (s : GridShape) (a : ndarray R) :
  np_zeros s = Ok a ->
  nd_shape a = (Z.to_nat (gs_n s), Z.to_nat (gs_h s),
                Z.to_nat (gs_w s), Z.to_nat (gs_c s)) /\
  nd_data a = replicate (Z.to_nat (gs_n s))
                (replicate (Z.to_nat (gs_h s))
                   (replicate (Z.to_nat (gs_w s))
                      (replicate (Z.to_nat (gs_c s)) r0))).
Proof.
  unfold np_zeros. case_match; [discriminate|]. by intros [= <-].
Qed.

(** An entry of an array of zeros after [a[:, y, x, 0] = v]. *)
Lemma impulse_entry (h w c iy ix : nat) (v : R) (i j ch : nat) :
  (i < h)%nat -> (j < w)%nat -> (ch < c)%nat ->
  nd_get {| nd_shape := (1%nat, h, w, c);
            nd_data := map (alter (alter (<[0%nat := v]>) ix) iy)
                         (replicate 1 (replicate h (replicate w (replicate c r0)))) |}
         0 i j ch
  = Some (if decide (i = iy /\ j = ix /\ ch = 0%nat) then v else r0).
Proof.
  intros Hi Hj Hch. unfold nd_get. simpl.
  rewrite list_lookup_alter. destruct (decide (iy = i)) as [->|Hne].
  - rewrite lookup_replicate_2 by done. simpl.
    rewrite list_lookup_alter. destruct (decide (ix = j)) as [->|Hne].
    + rewrite lookup_replicate_2 by done. simpl.
      rewrite list_lookup_insert, length_replicate.
      destruct (decide (0%nat = ch /\ (0 < c)%nat)) as [[<- _]|Hn].
      * by rewrite decide_True.
      * rewrite lookup_replicate_2 by done.
        rewrite decide_False; [done|]. intros (_ & _ & ->). apply Hn. lia.
    + rewrite lookup_replicate_2 by done. simpl.
      rewrite lookup_replicate_2 by done.
      rewrite decide_False; [done|]. intros (_ & -> & _). done.
  - rewrite lookup_replicate_2 by done. simpl.
    rewrite lookup_replicate_2 by done. simpl.
    rewrite lookup_replicate_2 by done.
    rewrite decide_False; [done|]. intros (-> & _). done.
Qed.


Lemma get_gradient_unfold (rf : extractor) points intensity masks base st :
  probe_arguments rf points intensity = Ok (masks, base) ->
  _get_gradient_from_grid_points rf points intensity st
  = _gradient_function rf masks base st.
Proof.
  intros Hp. unfold _get_gradient_from_grid_points.
  unfold mbind, M_bind, bind, lift. rewrite Hp. done.
Qed.

Lemma get_gradient_raise (rf : extractor) points intensity e st :
  probe_arguments rf points intensity = Raise e ->
  _get_gradient_from_grid_points rf points intensity st = (Raise e, st).
Proof.
  intros Hp. unfold _get_gradient_from_grid_points.
  unfold mbind, M_bind, bind, lift. rewrite Hp. done.
Qed.


Lemma zero_image_all_zero s a : zero_image s a -> all_zero a.
Proof.
  intros [_ Hd] b i j ch v. unfold nd_get. rewrite Hd.
  intros Hv.
  destruct (replicate _ _ !! b) as [img|] eqn:E1; [|done].
  apply lookup_replicate in E1 as [-> _]. simpl in Hv.
  destruct (replicate _ _ !! i) as [row|] eqn:E2; [|done].
  apply lookup_replicate in E2 as [-> _]. simpl in Hv.
  destruct (replicate _ _ !! j) as [px|] eqn:E3; [|done].
  apply lookup_replicate in E3 as [-> _]. simpl in Hv.
  by apply lookup_replicate in Hv as [-> _].
Qed.

(** C9.  Whatever the points, the intensity and the gradient function,
    [_get_gradient_from_grid_points] either raises before it reaches the
    gradient function, or calls it exactly with the masks it built and,
    as base input, the all-zeros image of shape
    [input_shape.replace(n=1)]: no other image is ever passed. *)
Theorem probe_base_input_is_zero (rf : extractor) (points : list GridPoint)
    (intensity : R) (st : state) :
  (exists e, probe_arguments rf points intensity = Raise e /\
     _get_gradient_from_grid_points rf points intensity st = (Raise e, st)) \/
  (exists masks base,
     _get_gradient_from_grid_points rf points intensity st
     = _gradient_function rf masks base st /\
     gs_n (replace_n (_input_shape rf) 1) = 1 /\
     zero_image (replace_n (_input_shape rf) 1) base /\
     all_zero base).
Proof.
  destruct (probe_arguments rf points intensity) as [[masks base]|e] eqn:Hp.
  - right. exists masks, base. split; [by apply get_gradient_unfold|].
    split; [done|].
    unfold probe_arguments in Hp.
    destruct (forM _ _) as [ms|]; simpl in Hp; [|discriminate].
    destruct (np_zeros _) as [b|] eqn:Hz; simpl in Hp; [|discriminate].
    injection Hp as <- <-.
    assert (zero_image (replace_n (_input_shape rf) 1) b) as Hzi
      by (by apply np_zeros_inv).
    split; [done|]. by eapply zero_image_all_zero.
  - left. exists e. split; [done|]. by apply get_gradient_raise.
Qed.


(** ** Reasoning about runs *)

Lemma bind_run {A B} (m : M A) (k : A -> M B) st :
  (m ≫= k) st = match m st with
                 | (Ok a, st1) => k a st1
                 | (Raise e, st1) => (Raise e, st1)
                 end.
Proof. reflexivity. Qed.

Lemma bind_Ok_inv {A B} (m : M A) (k : A -> M B) st b st' :
  (m ≫= k) st = (Ok b, st') ->
  exists a st1, m st = (Ok a, st1) /\ k a st1 = (Ok b, st').
Proof.
  rewrite bind_run. destruct (m st) as [[a|e] st1]; [|discriminate].
  intros Hk. by exists a, st1.
Qed.

Ltac run_binds := repeat (progress (try rewrite bind_run; simpl)).

Lemma lift_Ok_inv {A} (r : result A) st a st' :
  lift r st = (Ok a, st') -> r = Ok a /\ st' = st.
Proof. unfold lift. by intros [= -> ->]. Qed.

Lemma for_each_app {A S} (body : A -> S -> M S) xs ys acc st :
  for_each body (xs ++ ys) acc st =
  match for_each body xs acc st with
  | (Ok acc1, st1) => for_each body ys acc1 st1
  | (Raise e, st1) => (Raise e, st1)
  end.
Proof.
  revert acc st. induction xs as [|x xs IH]; intros acc st; simpl; [done|].
  unfold bind. destruct (body x acc st) as [[acc1|e] st1]; [apply IH|done].
Qed.

Section Steps.
Context (Rel : state -> state -> Prop) `{!PreOrder Rel}.

Lemma steps_ret {A} (a : A) : steps Rel (mret a : M A).
Proof. intros st. simpl. reflexivity. Qed.

Lemma steps_raise {A} e : steps Rel (raise e : M A).
Proof. intros st. simpl. reflexivity. Qed.

Lemma steps_lift {A} (r : result A) : steps Rel (lift r).
Proof. intros st. simpl. reflexivity. Qed.

Lemma steps_get_state : steps Rel get_state.
Proof. intros st. simpl. reflexivity. Qed.

Lemma steps_bind {A B} (m : M A) (k : A -> M B) :
  steps Rel m -> (forall a, steps Rel (k a)) -> steps Rel (m ≫= k).
Proof.
  intros Hm Hk st. rewrite bind_run. specialize (Hm st).
  destruct (m st) as [[a|e] st1]; simpl in *; [|done].
  etrans; [done|]. apply Hk.
Qed.

Lemma steps_for_each {A S} (body : A -> S -> M S) xs acc :
  (forall x a, steps Rel (body x a)) -> steps Rel (for_each body xs acc).
Proof.
  intros Hb. revert acc. induction xs as [|x xs IH]; intros acc; simpl.
  - apply (steps_ret acc).
  - apply (steps_bind (body x acc) (for_each body xs)); auto.
Qed.
End Steps.

Lemma builds_preorder : PreOrder builds.
Proof.
  split.
  - intros st. unfold builds. auto.
  - intros a b c (?&?&?&?&?) (?&?&?&?&?). unfold builds.
    repeat split; try congruence. lia.
Qed.
#[local] Existing Instance builds_preorder.

Lemma builds_modify_graph g f : steps builds (modify_graph g f).
Proof.
  intros st. unfold builds. simpl. rewrite length_alter. auto.
Qed.

Lemma builds_register base t : steps builds (register base t).
Proof.
  unfold register. apply steps_bind; [apply _|apply steps_get_state, _|].
  intros st. apply builds_modify_graph.
Qed.

Lemma builds_tf_Graph : steps builds tf_Graph.
Proof.
  intros st. unfold builds. simpl. rewrite length_app. simpl.
  repeat split; lia.
Qed.

Lemma builds_call_user {A} (r : string + A) : steps builds (call_user r).
Proof. destruct r; intros st; simpl; reflexivity. Qed.

Lemma builds_install_model g m : steps builds (install_model g m).
Proof. apply builds_modify_graph. Qed.

Lemma builds_get_operation_by_name g name :
  steps builds (get_operation_by_name g name).
Proof.
  intros st. unfold get_operation_by_name. rewrite bind_run. simpl.
  destruct (w_graphs (tf st) !! g) as [gd|]; simpl; [|reflexivity].
  destruct (g_ops gd !! name); simpl; reflexivity.
Qed.

Lemma builds_tf_placeholder g shape name :
  steps builds (tf_placeholder g shape name).
Proof.
  unfold tf_placeholder. destruct (forallb _ _); [|apply steps_raise, _].
  apply steps_bind; [apply _|apply steps_get_state, _|]. intros st.
  destruct (w_graphs (tf st) !! g); [|apply steps_raise, _].
  apply steps_bind; [apply _|apply builds_modify_graph|]. intros _.
  apply steps_bind; [apply _|apply builds_register|]. intros _.
  apply steps_ret, _.
Qed.

Lemma builds_tf_reduce_mean t axis keep_dims :
  steps builds (tf_reduce_mean t axis keep_dims).
Proof.
  unfold tf_reduce_mean.
  apply steps_bind; [apply _|apply steps_lift, _|]. intros _.
  apply steps_bind; [apply _|apply builds_register|]. intros _.
  apply steps_ret, _.
Qed.

Lemma builds_tf_mul a b : steps builds (tf_mul a b).
Proof.
  unfold tf_mul. destruct (decide _); [|apply steps_raise, _].
  apply steps_bind; [apply _|apply steps_lift, _|]. intros _.
  apply steps_bind; [apply _|apply builds_register|]. intros _.
  apply steps_ret, _.
Qed.

Lemma builds_tf_gradients y xs : steps builds (tf_gradients y xs).
Proof.
  unfold tf_gradients. destruct (forallb _ _); [|apply steps_raise, _].
  apply steps_bind; [apply _|apply steps_get_state, _|]. intros st.
  destruct (w_graphs (tf st) !! t_graph y); [|apply steps_raise, _].
  apply steps_bind; [apply _| |intros _; apply steps_ret, _].
  apply steps_for_each; [apply _|]. intros [t|] _.
  - apply builds_register.
  - apply steps_ret, _.
Qed.

Lemma builds_define_fm_gradient it ot mask :
  steps builds (_define_fm_gradient it ot mask).
Proof.
  unfold _define_fm_gradient.
  apply steps_bind; [apply _|apply builds_tf_reduce_mean|]. intros x.
  apply steps_bind; [apply _|apply builds_tf_mul|]. intros l1.
  apply steps_bind; [apply _|apply builds_tf_reduce_mean|]. intros l2.
  apply steps_bind; [apply _|apply builds_tf_gradients|]. intros gs.
  apply steps_lift, _.
Qed.

Lemma builds_fm_body graph it ot acc : steps builds (fm_body graph it ot acc).
Proof.
  unfold fm_body.
  apply steps_bind; [apply _|apply steps_lift, _|]. intros dims.
  apply steps_bind; [apply _|apply steps_lift, _|]. intros d1.
  apply steps_bind; [apply _|apply steps_lift, _|]. intros d2.
  apply steps_bind; [apply _|apply builds_tf_placeholder|]. intros mask.
  apply steps_bind; [apply _|apply builds_define_fm_gradient|]. intros g.
  apply steps_ret, _.
Qed.

Lemma builds_by_name_step graph it name acc :
  steps builds (by_name_step graph it name acc).
Proof.
  unfold by_name_step.
  apply steps_bind; [apply _|apply builds_get_operation_by_name|]. intros op.
  apply steps_bind; [apply _|apply steps_lift, _|]. intros ot.
  apply builds_fm_body.
Qed.

(** ** The three phases of a prepare call *)

Lemma close_previous_run st : close_previous st = (Ok (), after_close st).
Proof.
  unfold close_previous, after_close. rewrite bind_run. simpl.
  destruct st as [[s|] w]; reflexivity.
Qed.

Lemma finish_run g it ish acc st :
  exists r, finish g it ish acc st = (r, after_finish g st) /\
    forall x, r = Ok x ->
      exists gi, GridShape_star ish = Ok gi /\
        x = (mkClosure (l_masks acc) (l_grads acc) it, gi,
             GridShape_of <$> l_shapes acc).
Proof.
  unfold finish, after_finish, session_run_init, open_session. run_binds.
  rewrite lookup_app_r, Nat.sub_diag by done. simpl.
  destruct (w_graphs (tf st) !! g) as [gd|]; run_binds.
  2:{ eexists. split; [done|]. discriminate. }
  destruct (m_init (g_model gd)) as [msg|]; run_binds.
  { eexists. split; [done|]. discriminate. }
  destruct (GridShape_star ish) as [gi|e] eqn:Hgi; run_binds.
  - eexists. split; [done|]. intros x [= <-]. by exists gi.
  - eexists. split; [done|]. discriminate.
Qed.

Lemma builds_build_by_name f sh i : steps builds (build_by_name f sh i).
Proof.
  unfold build_by_name.
  apply steps_bind; [apply _|apply builds_tf_Graph|]. intros g.
  apply steps_bind; [apply _|apply builds_call_user|]. intros m.
  apply steps_bind; [apply _|apply builds_install_model|]. intros _.
  apply steps_bind; [apply _|apply builds_get_operation_by_name|]. intros op.
  apply steps_bind; [apply _|apply steps_lift, _|]. intros it.
  apply steps_bind; [apply _|apply steps_lift, _|]. intros ish.
  apply steps_ret, _.
Qed.

Lemma builds_build_by_construction f sh :
  steps builds (build_by_construction f sh).
Proof.
  unfold build_by_construction.
  apply steps_bind; [apply _|apply builds_tf_Graph|]. intros g.
  apply steps_bind; [apply _|apply builds_tf_placeholder|]. intros it.
  apply steps_bind; [apply _|apply steps_lift, _|]. intros ish.
  apply steps_bind; [apply _|apply builds_call_user|]. intros mf.
  apply steps_bind; [apply _|apply builds_install_model|]. intros _.
  apply steps_ret, _.
Qed.

(** The operations of a model, entered in graph [g], have outputs in [g]. *)
Lemma model_table_graph g m name op :
  (list_to_map (model_table g m) : gmap string operation) !! name = Some op ->
  Forall (fun t => t_graph t = g) (op_outputs op).
Proof.
  intros Hl. apply elem_of_list_to_map_2 in Hl. unfold model_table in Hl.
  apply elem_of_lookup_imap_1 in Hl as (i & [nm shapes] & Heq & _).
  injection Heq as _ ->. simpl.
  apply Forall_forall. intros t Ht.
  apply elem_of_lookup_imap_1 in Ht as (idx & sh & -> & _). done.
Qed.



Lemma alter_snoc {A} (f : A -> A) (l : list A) (x : A) :
  alter f (length l) (l ++ [x]) = l ++ [f x].
Proof.
  rewrite <- (Nat.add_0_r (length l)) at 1. by rewrite alter_app_r.
Qed.

Lemma lookup_snoc {A} (l : list A) (x : A) : (l ++ [x]) !! length l = Some x.
Proof. by apply list_lookup_middle. Qed.

Lemma build_by_name_run f sh name st :
  let g := length (w_graphs (tf st)) in
  build_by_name f sh name st =
  match f sh with
  | inl msg =>
      (Raise (UserError msg),
       with_graphs (w_graphs (tf st) ++ [mkGraph ∅ 0 empty_model]) st)
  | inr m =>
      let tbl : gmap string operation := list_to_map (model_table g m) in
      let st' := with_graphs (w_graphs (tf st) ++ [mkGraph tbl 0 m]) st in
      match tbl !! name with
      | None => (Raise (KeyError name), st')
      | Some op =>
          match op_outputs op !! 0%nat with
          | None => (Raise IndexError, st')
          | Some it =>
              match _get_tensor_shape it with
              | Ok ish => (Ok (g, it, ish), st')
              | Raise e => (Raise e, st')
              end
          end
      end
  end.
Proof.
  intros g. unfold build_by_name, with_graphs. run_binds.
  destruct (f sh) as [msg|m]; run_binds; [done|].
  unfold get_operation_by_name. run_binds.
  rewrite alter_snoc, lookup_snoc. simpl. fold g.
  rewrite (right_id_L ∅ (∪)).
  destruct ((list_to_map (model_table g m) : gmap string operation) !! name)
    as [op|]; run_binds; [|done].
  unfold py_getitem.
  destruct (op_outputs op !! 0%nat) as [it|]; run_binds; [|done].
  destruct (_get_tensor_shape it); run_binds; done.
Qed.

Lemma table_only_preorder : PreOrder table_only.
Proof.
  split.
  - intros st. split; [reflexivity|done].
  - intros a b c [Hab Hab'] [Hbc Hbc']. split; [by etrans|].
    intros g. by rewrite Hbc', Hab'.
Qed.
#[local] Existing Instance table_only_preorder.

Lemma table_only_register base t : steps table_only (register base t).
Proof.
  intros st. split; [apply builds_register|]. intros g. simpl.
  rewrite list_lookup_alter. destruct (decide (t_graph t = g)) as [->|]; [|done].
  by destruct (w_graphs (tf st) !! g).
Qed.

Lemma table_only_get_operation_by_name g name :
  steps table_only (get_operation_by_name g name).
Proof.
  intros st. unfold get_operation_by_name. rewrite bind_run. simpl.
  destruct (w_graphs (tf st) !! g) as [gd|]; simpl; [|reflexivity].
  destruct (g_ops gd !! name); simpl; reflexivity.
Qed.

Lemma table_only_tf_reduce_mean t axis keep_dims :
  steps table_only (tf_reduce_mean t axis keep_dims).
Proof.
  unfold tf_reduce_mean.
  apply steps_bind; [apply _|apply steps_lift, _|]. intros _.
  apply steps_bind; [apply _|apply table_only_register|]. intros _.
  apply steps_ret, _.
Qed.

Lemma table_only_tf_mul a b : steps table_only (tf_mul a b).
Proof.
  unfold tf_mul. destruct (decide _); [|apply steps_raise, _].
  apply steps_bind; [apply _|apply steps_lift, _|]. intros _.
  apply steps_bind; [apply _|apply table_only_register|]. intros _.
  apply steps_ret, _.
Qed.

Lemma table_only_tf_gradients y xs : steps table_only (tf_gradients y xs).
Proof.
  unfold tf_gradients. destruct (forallb _ _); [|apply steps_raise, _].
  apply steps_bind; [apply _|apply steps_get_state, _|]. intros st.
  destruct (w_graphs (tf st) !! t_graph y); [|apply steps_raise, _].
  apply steps_bind; [apply _| |intros _; apply steps_ret, _].
  apply steps_for_each; [apply _|]. intros [t|] _.
  - apply table_only_register.
  - apply steps_ret, _.
Qed.

Lemma table_only_define_fm_gradient it ot mask :
  steps table_only (_define_fm_gradient it ot mask).
Proof.
  unfold _define_fm_gradient.
  apply steps_bind; [apply _|apply table_only_tf_reduce_mean|]. intros x.
  apply steps_bind; [apply _|apply table_only_tf_mul|]. intros l1.
  apply steps_bind; [apply _|apply table_only_tf_reduce_mean|]. intros l2.
  apply steps_bind; [apply _|apply table_only_tf_gradients|]. intros gs.
  apply steps_lift, _.
Qed.

Lemma tf_reduce_mean_Ok t axis keep_dims st r st' :
  tf_reduce_mean t axis keep_dims st = (Ok r, st') ->
  r = TReduceMean t axis keep_dims.
Proof.
  unfold tf_reduce_mean. intros Hr.
  apply bind_Ok_inv in Hr as (? & st1 & _ & Hr).
  apply bind_Ok_inv in Hr as (? & st2 & _ & Hr).
  by injection Hr as <- _.
Qed.

Lemma tf_mul_Ok a b st r st' :
  tf_mul a b st = (Ok r, st') -> r = TMul a b /\ t_graph a = t_graph b.
Proof.
  unfold tf_mul. destruct (decide _) as [Hg|]; [|discriminate]. intros Hr.
  apply bind_Ok_inv in Hr as (? & st1 & _ & Hr).
  apply bind_Ok_inv in Hr as (? & st2 & _ & Hr).
  by injection Hr as <- _.
Qed.

Lemma tf_gradients_Ok y x st gs st' :
  tf_gradients y [x] st = (Ok gs, st') ->
  exists gd, w_graphs (tf st) !! t_graph y = Some gd /\
    t_graph x = t_graph y /\
    gs = [if connected (g_model gd) y x then Some (TGrad y x) else None].
Proof.
  unfold tf_gradients. simpl. rewrite andb_true_r.
  destruct (bool_decide (t_graph x = t_graph y)) eqn:Hg; [|discriminate].
  apply bool_decide_eq_true in Hg. rewrite bind_run. simpl.
  destruct (w_graphs (tf st) !! t_graph y) as [gd|]; [|discriminate].
  intros Hr. apply bind_Ok_inv in Hr as (? & st1 & _ & Hr).
  injection Hr as <- _. by exists gd.
Qed.

Lemma define_fm_gradient_Ok it ot mask st g st' :
  _define_fm_gradient it ot mask st = (Ok g, st') ->
  exists gd, w_graphs (tf st) !! t_graph ot = Some gd /\
    t_graph mask = t_graph ot /\ t_graph it = t_graph ot /\
    g = if connected (g_model gd) (fake_loss ot mask) it
        then Some (TGrad (fake_loss ot mask) it) else None.
Proof.
  unfold _define_fm_gradient. intros Hr.
  apply bind_Ok_inv in Hr as (x & st1 & Hx & Hr).
  apply bind_Ok_inv in Hr as (l1 & st2 & Hl1 & Hr).
  apply bind_Ok_inv in Hr as (l2 & st3 & Hl2 & Hr).
  apply bind_Ok_inv in Hr as (gs & st4 & Hgs & Hr).
  pose proof (table_only_tf_reduce_mean ot (Some (-1)) true st) as [_ T1].
  rewrite Hx in T1. simpl in T1.
  pose proof (table_only_tf_mul x mask st1) as [_ T2].
  rewrite Hl1 in T2. simpl in T2.
  pose proof (table_only_tf_reduce_mean l1 None false st2) as [_ T3].
  rewrite Hl2 in T3. simpl in T3.
  apply tf_reduce_mean_Ok in Hx as ->.
  apply tf_mul_Ok in Hl1 as [-> Hg1].
  apply tf_reduce_mean_Ok in Hl2 as ->.
  apply tf_gradients_Ok in Hgs as (gd3 & Hgd3 & Hg2 & ->).
  simpl in *.
  apply lift_Ok_inv in Hr as [Hr _]. injection Hr as <-.
  specialize (T1 (t_graph ot)). specialize (T2 (t_graph ot)).
  specialize (T3 (t_graph ot)). rewrite Hgd3 in T3. rewrite T2, T1 in T3.
  destruct (w_graphs (tf st) !! t_graph ot) as [gd|]; [|done].
  simpl in T3. injection T3 as _ Hm.
  exists gd. rewrite <- Hm. done.
Qed.

Lemma tf_placeholder_Ok g shape name st t st' :
  tf_placeholder g shape name st = (Ok t, st') ->
  exists gd gd', w_graphs (tf st) !! g = Some gd /\
    t = TPlaceholder g (g_next gd) (Z.to_N <$> shape) /\
    w_graphs (tf st') !! g = Some gd' /\
    g_next gd' = S (g_next gd) /\ g_model gd' = g_model gd.
Proof.
  unfold tf_placeholder. destruct (forallb _ _); [|discriminate].
  rewrite bind_run. simpl.
  destruct (w_graphs (tf st) !! g) as [gd|] eqn:Hgd; [|discriminate].
  unfold register. run_binds. intros [= <- <-]. simpl.
  rewrite !list_lookup_alter_eq, Hgd. simpl.
  eexists _, _. by repeat split.
Qed.

Lemma fm_body_Ok graph it ot acc st acc' st' gd :
  fm_body graph it ot acc st = (Ok acc', st') ->
  w_graphs (tf st) !! graph = Some gd ->
  exists grad mask sh gd',
    acc' = {| l_grads := l_grads acc ++ [grad];
              l_masks := l_masks acc ++ [mask];
              l_shapes := l_shapes acc ++ [sh] |} /\
    fm_entry (g_model gd) it (g_next gd) ot grad mask sh /\
    graph = t_graph it /\
    w_graphs (tf st') !! graph = Some gd' /\
    g_next gd' = S (g_next gd) /\ g_model gd' = g_model gd.
Proof.
  unfold fm_body. intros Hr Hgd.
  apply bind_Ok_inv in Hr as (dims & st1 & Hdims & Hr).
  apply lift_Ok_inv in Hdims as [Hdims ->].
  apply bind_Ok_inv in Hr as (d1 & st1 & Hd1 & Hr).
  apply lift_Ok_inv in Hd1 as [Hd1 ->].
  apply bind_Ok_inv in Hr as (d2 & st1 & Hd2 & Hr).
  apply lift_Ok_inv in Hd2 as [Hd2 ->].
  apply bind_Ok_inv in Hr as (mask & st1 & Hmask & Hr).
  apply bind_Ok_inv in Hr as (grad & st2 & Hgrad & Hr).
  injection Hr as <- <-.
  apply tf_placeholder_Ok in Hmask as (gd0 & gd1 & Hgd0 & -> & Hgd1 & Hn & Hm).
  assert (gd0 = gd) as -> by congruence.
  pose proof (table_only_define_fm_gradient it ot
                (TPlaceholder graph (g_next gd) (Z.to_N <$> [1; d1; d2; 1])) st1)
    as [_ T].
  rewrite Hgrad in T. simpl in T. specialize (T graph). rewrite Hgd1 in T.
  apply define_fm_gradient_Ok in Hgrad as (gd2 & Hgd2 & Hg1 & Hg2 & ->).
  simpl in Hg1. rewrite <- Hg1 in Hgd2.
  assert (gd2 = gd1) as -> by congruence.
  destruct (w_graphs (tf st2) !! graph) as [gd'|]; [|done].
  simpl in T. injection T as Hn' Hm'.
  unfold py_getitem in Hd1, Hd2.
  destruct (dims !! 1%nat) as [x1|] eqn:E1; [|discriminate]. injection Hd1 as ->.
  destruct (dims !! 2%nat) as [x2|] eqn:E2; [|discriminate]. injection Hd2 as ->.
  eexists _, _, _, gd'. split; [done|].
  split; [|repeat split; congruence].
  exists dims, d1, d2. rewrite Hm.
  assert (t_graph it = graph) as Hit by congruence.
  rewrite Hit. repeat split; try done; congruence.
Qed.
Lemma by_name_step_Ok graph it name acc st acc' st' :
  by_name_step graph it name acc st = (Ok acc', st') ->
  exists ot, resolves_in graph st name ot /\
    fm_body graph it ot acc st = (Ok acc', st').
Proof.
  unfold by_name_step, get_operation_by_name. rewrite !bind_run. simpl.
  destruct (w_graphs (tf st) !! graph) as [gd|] eqn:Hgd; [|discriminate].
  destruct (g_ops gd !! name) as [op|] eqn:Hop; [|discriminate]. simpl.
  rewrite bind_run. unfold py_getitem. simpl.
  destruct (op_outputs op !! 0%nat) as [ot|] eqn:Hot; [|discriminate].
  intros Hb. exists ot. split; [|done]. by exists gd, op.
Qed.

Lemma for_each_by_name_run graph it names acc st acc' st' :
  for_each (by_name_step graph it) names acc st = (Ok acc', st') ->
  exists outs, by_name_run graph it names outs acc st acc' st'.
Proof.
  revert acc st. induction names as [|name names IH]; intros acc st; simpl.
  - intros [= <- <-]. exists []. constructor.
  - unfold bind. destruct (by_name_step graph it name acc st)
      as [[acc1|e] st1] eqn:Hstep; [|discriminate].
    intros Hrest. apply by_name_step_Ok in Hstep as (ot & Hres & Hbody).
    destruct (IH _ _ Hrest) as [outs Houts].
    exists (ot :: outs). by econstructor.
Qed.

Lemma by_name_run_fm_loop graph it names outs acc st acc' st' :
  by_name_run graph it names outs acc st acc' st' ->
  fm_loop graph it outs acc st acc' st' /\ length outs = length names.
Proof.
  induction 1 as [|name names ot outs acc st acc1 st1 acc2 st2 Hres Hbody Hrun IH];
    simpl.
  - split; [constructor|done].
  - destruct IH as [IH1 IH2]. split; [by econstructor|by f_equal].
Qed.

Lemma for_each_fm_loop graph it outs acc st acc' st' :
  for_each (fm_body graph it) outs acc st = (Ok acc', st') ->
  fm_loop graph it outs acc st acc' st'.
Proof.
  revert acc st. induction outs as [|ot outs IH]; intros acc st; simpl.
  - intros [= <- <-]. constructor.
  - unfold bind. destruct (fm_body graph it ot acc st)
      as [[acc1|e] st1] eqn:Hstep; [|discriminate].
    intros Hrest. econstructor; [done|]. by apply IH.
Qed.

Lemma fm_loop_entries graph it outs acc st acc' st' gd :
  fm_loop graph it outs acc st acc' st' ->
  w_graphs (tf st) !! graph = Some gd ->
  exists gs ms shs gd',
    l_grads acc' = l_grads acc ++ gs /\
    l_masks acc' = l_masks acc ++ ms /\
    l_shapes acc' = l_shapes acc ++ shs /\
    fm_entries (g_model gd) it (g_next gd) outs gs ms shs /\
    w_graphs (tf st') !! graph = Some gd' /\
    g_model gd' = g_model gd /\
    g_next gd' = (g_next gd + length outs)%nat.
Proof.
  intros Hloop. revert gd.
  induction Hloop as [acc st|ot outs acc st acc1 st1 acc2 st2 Hbody Hloop IH];
    intros gd Hgd.
  - exists [], [], [], gd. rewrite !app_nil_r, Nat.add_0_r. done.
  - destruct (fm_body_Ok _ _ _ _ _ _ _ _ Hbody Hgd)
      as (grad & mask & sh & gd1 & -> & Hentry & Hg & Hgd1 & Hn1 & Hm1).
    destruct (IH _ Hgd1) as (gs & ms & shs & gd' & E1 & E2 & E3 & Hent & Hgd' & Hm' & Hn').
    simpl in E1, E2, E3.
    exists (grad :: gs), (mask :: ms), (sh :: shs), gd'.
    rewrite E1, E2, E3, <- !app_assoc. simpl.
    repeat split; try done.
    + by rewrite <- Hn1, <- Hm1.
    + congruence.
    + lia.
Qed.

Lemma fm_entries_length m it id outs gs ms shs :
  fm_entries m it id outs gs ms shs ->
  length gs = length outs /\ length ms = length outs /\ length shs = length outs.
Proof.
  revert id gs ms shs. induction outs as [|ot outs IH];
    intros id [|g gs] [|mask ms] [|sh shs]; simpl; try done.
  intros [_ Hrest]. destruct (IH _ _ _ _ Hrest) as (-> & -> & ->). done.
Qed.

Lemma fm_entries_lookup m it id outs gs ms shs i ot :
  fm_entries m it id outs gs ms shs -> outs !! i = Some ot ->
  exists g mask sh, gs !! i = Some g /\ ms !! i = Some mask /\
    shs !! i = Some sh /\ fm_entry m it (id + i) ot g mask sh.
Proof.
  revert id gs ms shs i. induction outs as [|o outs IH];
    intros id [|g gs] [|mask ms] [|sh shs] i; simpl; try done.
  intros [Hent Hrest] Hi. destruct i as [|i]; simpl in *.
  - injection Hi as <-. exists g, mask, sh. by rewrite Nat.add_0_r.
  - destruct (IH _ _ _ _ _ Hrest Hi) as (g' & mask' & sh' & ? & ? & ? & Hent').
    exists g', mask', sh'. replace (id + S i)%nat with (S id + i)%nat by lia. done.
Qed.

Lemma placeholder_shape g id (dims : list Z) :
  Forall (fun d => 0 <= d) dims ->
  _get_tensor_shape (TPlaceholder g id (Z.to_N <$> dims)) = Ok dims.
Proof.
  unfold _get_tensor_shape. simpl. intros Hd. apply forM_Ok_intro.
  induction Hd as [|d dims Hd _ IH]; simpl; constructor; [|done].
  by rewrite Z2N.id.
Qed.

Lemma build_by_construction_Ok f sh st g it ish outs st' :
  build_by_construction f sh st = (Ok (g, it, ish, outs), st') ->
  exists m gd,
    g = length (w_graphs (tf st)) /\
    it = TPlaceholder g 0 (Z.to_N <$> [1; is_h sh; is_w sh; is_c sh]) /\
    ish = [1; is_h sh; is_w sh; is_c sh] /\
    f it = inr (m, outs) /\
    w_graphs (tf st') !! g = Some gd /\ g_next gd = 1%nat /\ g_model gd = m.
Proof.
  unfold build_by_construction. intros Hr.
  apply bind_Ok_inv in Hr as (g0 & st1 & Hg & Hr).
  injection Hg as <- <-.
  apply bind_Ok_inv in Hr as (it0 & st2 & Hit & Hr).
  assert (Forall (fun d => 0 <= d) [1; is_h sh; is_w sh; is_c sh]) as Hnn.
  { unfold tf_placeholder in Hit.
    destruct (forallb _ _) eqn:Hf; [|discriminate].
    apply Is_true_true, forallb_True in Hf. eapply Forall_impl; [done|].
    intros d Hd. simpl in Hd. apply Is_true_true in Hd. lia. }
  apply tf_placeholder_Ok in Hit as (gd0 & gd1 & Hgd0 & -> & Hgd1 & Hn1 & Hm1).
  simpl in Hgd0. rewrite lookup_snoc in Hgd0. injection Hgd0 as <-.
  simpl in Hn1.
  apply bind_Ok_inv in Hr as (ish0 & st3 & Hish & Hr).
  apply lift_Ok_inv in Hish as [Hish ->].
  rewrite placeholder_shape in Hish by done. injection Hish as <-.
  apply bind_Ok_inv in Hr as ([m outs0] & st3 & Hf & Hr).
  unfold call_user in Hf. destruct (f _) as [msg|mf] eqn:Hfe; [discriminate|].
  injection Hf as -> <-.
  apply bind_Ok_inv in Hr as ([] & st4 & Hinst & Hr).
  injection Hr as <- <- <- <- <-.
  injection Hinst as <-. simpl.
  rewrite list_lookup_alter_eq, Hgd1. simpl.
  eexists m, _. repeat split; try done.
Qed.

Lemma build_by_name_Ok f sh name st g it ish st' :
  build_by_name f sh name st = (Ok (g, it, ish), st') ->
  exists m gd,
    g = length (w_graphs (tf st)) /\
    f sh = inr m /\
    resolves_in g st' name it /\
    (exists id idx s, it = TModel g id idx s) /\
    _get_tensor_shape it = Ok ish /\
    w_graphs (tf st') !! g = Some gd /\ g_next gd = 0%nat /\ g_model gd = m.
Proof.
  rewrite build_by_name_run. simpl.
  destruct (f sh) as [msg|m]; [discriminate|].
  destruct (_ !! name) as [op|] eqn:Hop; [|discriminate].
  destruct (op_outputs op !! 0%nat) as [it0|] eqn:Hit; [|discriminate].
  destruct (_get_tensor_shape it0) as [ish0|] eqn:Hish; [|discriminate].
  intros [= <- <- <- <-].
  exists m, (mkGraph (list_to_map (model_table (length (w_graphs (tf st))) m)) 0 m).
  simpl. rewrite lookup_snoc.
  repeat split; try done.
  - eexists _, op. simpl. rewrite lookup_snoc. done.
  - apply elem_of_list_to_map_2 in Hop. unfold model_table in Hop.
    apply elem_of_lookup_imap_1 in Hop as (i & [nm shapes] & Heq & _).
    injection Heq as _ ->. simpl in Hit.
    apply list_lookup_imap_Some in Hit as (s & _ & ->). by eexists _, _, _.
Qed.

Lemma after_close_graphs st : w_graphs (tf (after_close st)) = w_graphs (tf st).
Proof. unfold after_close. by destruct (_session st). Qed.

Lemma prepare_Ok c st cl gi go st' :
  _prepare_gradient_func c st = (Ok (cl, gi, go), st') ->
  exists outs shs m gd st2 ish id0,
    resolved_outputs c st (input_tensor cl) outs /\
    t_graph (input_tensor cl) = length (w_graphs (tf st)) /\
    _get_tensor_shape (input_tensor cl) = Ok ish /\
    GridShape_star ish = Ok gi /\
    go = GridShape_of <$> shs /\
    fm_entries m (input_tensor cl) id0 outs
      (grads cl) (receptive_field_masks cl) shs /\
    (forall id sh, input_tensor cl = TPlaceholder (length (w_graphs (tf st))) id sh ->
       (id < id0)%nat) /\
    w_graphs (tf st') !! length (w_graphs (tf st)) = Some gd /\
    g_model gd = m /\
    builds (after_close st) st2 /\
    st' = after_finish (length (w_graphs (tf st))) st2.
Proof.
  destruct c as [f sh name os|f sh]; simpl.
  - unfold TFReceptiveField_prepare_gradient_func.
    rewrite bind_run, close_previous_run. intros Hr.
    apply bind_Ok_inv in Hr as ([[g it] ish] & st1 & Hbuild & Hr).
    apply bind_Ok_inv in Hr as (acc & st2 & Hloop & Hr). simpl in *.
    pose proof (builds_build_by_name f sh name (after_close st)) as B1.
    rewrite Hbuild in B1. simpl in B1.
    pose proof (steps_for_each builds (by_name_step g it) os (mkLists [] [] [])
                  (builds_by_name_step g it) st1) as B2.
    rewrite Hloop in B2. simpl in B2.
    destruct (build_by_name_Ok _ _ _ _ _ _ _ _ Hbuild)
      as (m & gd & -> & Hf & Hres & (id & idx & s & ->) & Hish & Hgd & Hn & Hm).
    rewrite after_close_graphs in *.
    apply for_each_by_name_run in Hloop as (outs & Hrun).
    pose proof (by_name_run_fm_loop _ _ _ _ _ _ _ _ Hrun) as [Hfm Hlen].
    destruct (fm_loop_entries _ _ _ _ _ _ _ _ Hfm Hgd)
      as (gs & ms & shs & gd' & E1 & E2 & E3 & Hent & Hgd' & Hm' & Hn').
    simpl in E1, E2, E3.
    destruct (finish_run (length (w_graphs (tf st)))
                (TModel (length (w_graphs (tf st))) id idx s) ish acc st2)
      as (r & Hfin & Hok).
    rewrite Hfin in Hr. injection Hr as -> <-.
    destruct (Hok _ eq_refl) as (gi' & Hgi & Hx). injection Hx as -> -> ->.
    simpl. exists outs, shs, m, gd', st2, ish, (g_next gd).
    rewrite E1, E2, E3, <- Hm. split_and!; try done.
    + by eexists _, _, _, _, _.
    + by etrans.
  - unfold TFFeatureMapsReceptiveField_prepare_gradient_func.
    rewrite bind_run, close_previous_run. intros Hr.
    apply bind_Ok_inv in Hr as ([[[g it] ish] outs] & st1 & Hbuild & Hr).
    apply bind_Ok_inv in Hr as (acc & st2 & Hloop & Hr). simpl in *.
    pose proof (builds_build_by_construction f sh (after_close st)) as B1.
    rewrite Hbuild in B1. simpl in B1.
    pose proof (steps_for_each builds (fm_body g it) outs (mkLists [] [] [])
                  (builds_fm_body g it) st1) as B2.
    rewrite Hloop in B2. simpl in B2.
    destruct (build_by_construction_Ok _ _ _ _ _ _ _ _ Hbuild)
      as (m & gd & -> & -> & -> & Hf & Hgd & Hn & Hm).
    rewrite after_close_graphs in *.
    apply for_each_fm_loop in Hloop as Hfm.
    destruct (fm_loop_entries _ _ _ _ _ _ _ _ Hfm Hgd)
      as (gs & ms & shs & gd' & E1 & E2 & E3 & Hent & Hgd' & Hm' & Hn').
    simpl in E1, E2, E3.
    match type of Hr with finish ?g ?it ?ish acc st2 = _ =>
      destruct (finish_run g it ish acc st2) as (r & Hfin & Hok) end.
    rewrite Hfin in Hr. injection Hr as -> <-.
    destruct (Hok _ eq_refl) as (gi' & Hgi & Hx). injection Hx as -> -> ->.
    simpl. exists outs, shs, m, gd', st2, [1; is_h sh; is_w sh; is_c sh], (g_next gd).
    rewrite E1, E2, E3, <- Hm. split_and!; try done.
    + by exists m.
    + apply (placeholder_shape _ _ [1; is_h sh; is_w sh; is_c sh]).
      unfold build_by_construction in Hbuild.
      apply bind_Ok_inv in Hbuild as (g0 & st0 & _ & Hb).
      apply bind_Ok_inv in Hb as (it0 & st3 & Hit & _).
      unfold tf_placeholder in Hit.
      destruct (forallb _ _) eqn:Hfb; [|discriminate].
      apply Is_true_true, forallb_True in Hfb. eapply Forall_impl; [done|].
      intros d Hd. simpl in Hd. apply Is_true_true in Hd. lia.
    + intros id sh' [= <- _]. lia.
    + by etrans.
Qed.

Lemma fm_entry_known_shape m it id ot g mask sh n h w ch :
  fm_entry m it id ot g mask sh ->
  get_shape ot = Some [Some n; Some h; Some w; Some ch] ->
  sh = (1, Z.of_N h, Z.of_N w, 1) /\
  get_shape mask = Some [Some 1; Some h; Some w; Some 1]%N.
Proof.
  intros (dims & d1 & d2 & Hdims & Hd1 & Hd2 & -> & -> & _) Hshape.
  unfold _get_tensor_shape in Hdims. rewrite Hshape in Hdims. simpl in Hdims.
  injection Hdims as <-. simpl in Hd1, Hd2.
  injection Hd1 as <-. injection Hd2 as <-. simpl. by rewrite !N2Z.id.
Qed.

Lemma fm_entry_batch m it id ot g mask sh :
  fm_entry m it id ot g mask sh -> gs_n (GridShape_of sh) = 1.
Proof. by intros (dims & d1 & d2 & _ & _ & _ & -> & _). Qed.

(** C7.  After a successful prepare call of either class, the returned
    shapes and the mask placeholders are aligned with the output
    tensors, and wherever the output tensor has a static shape
    [(n, h, w, c)] the returned shape at its position is exactly
    [(1, h, w, 1)] and the mask placeholder at its position has exactly
    this shape. *)
Theorem output_shape_and_mask (c : prepare_call) (st : state)
    (cl : closure) (gi : GridShape) (go : list GridShape) (st' : state) :
  _prepare_gradient_func c st = (Ok (cl, gi, go), st') ->
  exists outs,
    resolved_outputs c st (input_tensor cl) outs /\
    length go = length outs /\
    length (receptive_field_masks cl) = length outs /\
    forall i ot n h w ch,
      outs !! i = Some ot ->
      get_shape ot = Some [Some n; Some h; Some w; Some ch] ->
      go !! i = Some (mkGridShape 1 (Z.of_N h) (Z.of_N w) 1) /\
      exists mask, receptive_field_masks cl !! i = Some mask /\
        get_shape mask = Some [Some 1; Some h; Some w; Some 1]%N.
Proof.
  intros Hr.
  destruct (prepare_Ok _ _ _ _ _ _ Hr)
    as (outs & shs & m & gd & st2 & ish & id0 & Hres & _ & _ & _ & -> & Hent & _).
  destruct (fm_entries_length _ _ _ _ _ _ _ Hent) as (_ & Hlm & Hls).
  exists outs. split; [done|]. rewrite length_fmap. split; [done|]. split; [done|].
  intros i ot n h w ch Hi Hshape.
  destruct (fm_entries_lookup _ _ _ _ _ _ _ _ _ Hent Hi)
    as (g & mask & sh & _ & Hmask & Hsh & Hentry).
  destruct (fm_entry_known_shape _ _ _ _ _ _ _ _ _ _ _ Hentry Hshape) as [-> Hms].
  rewrite list_lookup_fmap, Hsh. simpl. split; [done|]. by exists mask.
Qed.

(** C3, as amended.  After a successful prepare call every returned
    output shape has batch dimension 1.  The returned input shape is the
    static shape of the input tensor: for [TFFeatureMapsReceptiveField],
    which makes the input placeholder itself, its batch dimension is 1;
    for [TFReceptiveField] it is whatever batch dimension the tensor
    found under the given name has. *)
Theorem batch_dimension (c : prepare_call) (st : state)
    (cl : closure) (gi : GridShape) (go : list GridShape) (st' : state) :
  _prepare_gradient_func c st = (Ok (cl, gi, go), st') ->
  Forall (fun s => gs_n s = 1) go /\
  _get_tensor_shape (input_tensor cl) = Ok [gs_n gi; gs_h gi; gs_w gi; gs_c gi] /\
  match c with
  | ByName _ _ _ _ => True
  | ByConstruction _ _ => gs_n gi = 1
  end.
Proof.
  intros Hr.
  destruct (prepare_Ok _ _ _ _ _ _ Hr)
    as (outs & shs & m & gd & st2 & ish & id0 & Hres & _ & Hish & Hgi & -> & Hent & _).
  split; [|split].
  - apply Forall_forall. intros s Hs.
    apply list_elem_of_fmap in Hs as (sh & -> & Hsh).
    apply list_elem_of_lookup in Hsh as [i Hi].
    destruct (fm_entries_length _ _ _ _ _ _ _ Hent) as (_ & _ & Hls).
    destruct (lookup_lt_is_Some_2 outs i) as [ot Hot].
    { rewrite <- Hls. by eapply lookup_lt_Some. }
    destruct (fm_entries_lookup _ _ _ _ _ _ _ _ _ Hent Hot)
      as (g & mask & sh' & _ & _ & Hsh' & Hentry).
    assert (sh' = sh) as -> by congruence. by eapply fm_entry_batch.
  - rewrite Hish. unfold GridShape_star in Hgi.
    destruct ish as [|a [|b [|c0 [|d [|]]]]]; try discriminate.
    by injection Hgi as <-.
  - destruct c as [|f sh]; [done|]. destruct Hres as (m' & Hit & _).
    rewrite Hit in Hish. unfold _get_tensor_shape in Hish. simpl in Hish.
    injection Hish as <-. by injection Hgi as <-.
Qed.

(** ** Feed dictionaries *)

Lemma dict_get_set_eq (d : feed_dict) k v : dict_get (dict_set d k v) k = Some v.
Proof.
  induction d as [|[k' v'] d IH]; simpl.
  - by rewrite decide_True.
  - destruct (decide (k = k')) as [->|Hne]; simpl.
    + by rewrite decide_True.
    + by rewrite decide_False.
Qed.

Lemma dict_get_set_ne (d : feed_dict) k v k' :
  k <> k' -> dict_get (dict_set d k v) k' = dict_get d k'.
Proof.
  intros Hne. induction d as [|[k0 v0] d IH]; simpl.
  - by rewrite decide_False.
  - destruct (decide (k = k0)) as [->|Hne0]; simpl.
    + by rewrite !decide_False.
    + destruct (decide (k' = k0)); [done|]. apply IH.
Qed.

Lemma dict_set_keys (d : feed_dict) k v (P : tensor -> Prop) :
  Forall (fun kv => P kv.1) d -> P k ->
  Forall (fun kv => P kv.1) (dict_set d k v).
Proof.
  intros Hd Hk. induction Hd as [|[k' v'] d Hk' Hd IH]; simpl.
  - by repeat constructor.
  - destruct (decide (k = k')); constructor; done.
Qed.

Lemma dict_set_values (d : feed_dict) k v (P : tensor * ndarray R -> Prop) :
  Forall P d -> P (k, v) -> Forall P (dict_set d k v).
Proof.
  intros Hd Hk. induction Hd as [|[k' v'] d Hk' Hd IH]; simpl.
  - by repeat constructor.
  - destruct (decide (k = k')); constructor; done.
Qed.


Lemma dict_of_snoc items k v :
  dict_of (items ++ [(k, v)]) = dict_set (dict_of items) k v.
Proof. unfold dict_of. by rewrite foldl_app. Qed.

Lemma dict_of_values items (P : tensor * ndarray R -> Prop) :
  Forall P items -> Forall P (dict_of items).
Proof.
  induction items as [|[k v] items IH] using rev_ind; intros Hall.
  - constructor.
  - rewrite dict_of_snoc. apply Forall_app in Hall as [Hi Hkv].
    apply dict_set_values; [by apply IH|]. by inversion Hkv.
Qed.

Lemma foldl_dict_set_other (d : feed_dict) items k :
  k ∉ items.*1 ->
  dict_get (foldl (fun d kv => dict_set d kv.1 kv.2) d items) k = dict_get d k.
Proof.
  revert d. induction items as [|[k0 v0] items IH]; intros d Hk; simpl; [done|].
  rewrite IH.
  - apply dict_get_set_ne. intros ->. apply Hk. by left.
  - intros Hin. apply Hk. by right.
Qed.

Lemma zip_keys {A B} (ks : list A) (vs : list B) x : x ∈ (zip ks vs).*1 -> x ∈ ks.
Proof.
  revert vs. induction ks as [|k ks IH]; intros [|v vs]; simpl; try by inversion 1.
  intros Hx. apply elem_of_cons in Hx as [->|Hx]; [by left|right; eauto].
Qed.

Lemma foldl_dict_set_lookup (d : feed_dict) (ks : list tensor)
    (vs : list (ndarray R)) i k v :
  NoDup ks -> ks !! i = Some k -> vs !! i = Some v ->
  dict_get (foldl (fun d kv => dict_set d kv.1 kv.2) d (zip ks vs)) k = Some v.
Proof.
  revert d vs i. induction ks as [|k0 ks IH]; intros d vs i Hnd Hk Hv; [done|].
  destruct vs as [|v0 vs]; [done|]. apply NoDup_cons in Hnd as [Hnot Hnd].
  destruct i as [|i]; simpl in *.
  - injection Hk as ->. injection Hv as ->.
    rewrite foldl_dict_set_other; [apply dict_get_set_eq|].
    intros Hin. by apply Hnot, (zip_keys _ vs).
  - by apply (IH _ _ i).
Qed.

(** With distinct keys every item is found under its key. *)
Lemma dict_of_zip_lookup (ks : list tensor) (vs : list (ndarray R)) i k v :
  NoDup ks -> ks !! i = Some k -> vs !! i = Some v ->
  dict_get (dict_of (zip ks vs)) k = Some v.
Proof. apply foldl_dict_set_lookup. Qed.

(** ** The gradient function *)

Lemma gradient_fn_state cl fm_masks img st s :
  _session st = Some s ->
  (gradient_fn cl fm_masks img st).2
  = logged (EvRun s (grads cl) (fetch_dict cl fm_masks img)) st.
Proof.
  intros Hs. destruct st as [ss w]. simpl in Hs. subst ss.
  unfold gradient_fn, session_run, logged.
  fold (fetch_dict cl fm_masks img). run_binds.
  destruct (w_sessions w !! s) as [sd|]; [|reflexivity].
  destruct (s_closed sd); [reflexivity|].
  destruct (negb _); [reflexivity|]. destruct (negb _); [reflexivity|].
  rewrite bind_run. unfold lift.
  destruct (forM _ (grads cl)) as [ts|]; [|reflexivity].
  destruct (w_graphs w !! s_graph sd) as [gd|]; reflexivity.
Qed.

Lemma gradient_fn_Ok cl fm_masks img st vals st' :
  gradient_fn cl fm_masks img st = (Ok vals, st') ->
  exists s g gd,
    _session st = Some s /\
    w_sessions (tf st) !! s = Some (mkSession g false) /\
    w_graphs (tf st) !! g = Some gd /\
    Forall2 (fun gr v => exists t, gr = Some t /\ t_graph t = g /\
               eval (w_backend (tf st)) (g_model gd)
                 (fetch_dict cl fm_masks img) t = Ok v) (grads cl) vals /\
    st' = logged (EvRun s (grads cl) (fetch_dict cl fm_masks img)) st.
Proof.
  intros Hr.
  destruct (_session st) as [s|] eqn:Hs.
  2:{ unfold gradient_fn in Hr. rewrite bind_run in Hr. simpl in Hr.
      rewrite Hs in Hr. discriminate. }
  pose proof (gradient_fn_state cl fm_masks img st s Hs) as Hst.
  rewrite Hr in Hst. simpl in Hst.
  unfold gradient_fn, session_run in Hr. fold (fetch_dict cl fm_masks img) in Hr.
  rewrite bind_run in Hr. simpl in Hr. rewrite Hs in Hr.
  repeat (progress (try rewrite bind_run in Hr; simpl in Hr)).
  destruct (w_sessions (tf st) !! s) as [[g closed]|] eqn:Hsd; [|discriminate].
  simpl in Hr. destruct closed; [discriminate|].
  destruct (negb _); [discriminate|]. destruct (negb _); [discriminate|].
  rewrite bind_run in Hr. unfold lift in Hr.
  destruct (forM _ (grads cl)) as [ts|] eqn:Hts; [|discriminate].
  destruct (w_graphs (tf st) !! g) as [gd|] eqn:Hgd; [|discriminate].
  destruct (forM _ ts) as [vs|] eqn:Hvs; [|discriminate].
  injection Hr as <- _.
  exists s, g, gd. split_and!; try done.
  apply forM_Ok_inv in Hts. apply forM_Ok_inv in Hvs.
  clear -Hts Hvs. revert vs Hvs.
  induction Hts as [|gr t grs ts Hgr _ IH]; intros vs Hvs.
  - inversion Hvs. constructor.
  - inversion Hvs as [|? v ? vs' Hv Hvs']; subst. constructor; [|by apply IH].
    destruct gr as [t'|]; [|discriminate].
    destruct (decide (t_graph t' = g)); [|discriminate].
    injection Hgr as ->. by exists t.
Qed.

Lemma forallb_Forall {A} (p : A -> bool) (P : A -> Prop) (l : list A) :
  (forall x, P x -> p x = true) -> Forall P l -> forallb p l = true.
Proof.
  intros Hp Hl. induction Hl as [|x l Hx _ IH]; simpl; [done|].
  by rewrite (Hp x Hx), IH.
Qed.

Lemma gradient_fn_returns cl fm_masks img st s g gd vals :
  _session st = Some s ->
  w_sessions (tf st) !! s = Some (mkSession g false) ->
  w_graphs (tf st) !! g = Some gd ->
  Forall (fun t => t_graph t = g) (receptive_field_masks cl) ->
  t_graph (input_tensor cl) = g ->
  Forall2 (fun mask a => shape_fits a mask = true) (receptive_field_masks cl) fm_masks ->
  shape_fits img (input_tensor cl) = true ->
  Forall2 (fun gr v => exists t, gr = Some t /\ t_graph t = g /\
             eval (w_backend (tf st)) (g_model gd)
               (fetch_dict cl fm_masks img) t = Ok v) (grads cl) vals ->
  gradient_fn cl fm_masks img st
  = (Ok vals, logged (EvRun s (grads cl) (fetch_dict cl fm_masks img)) st).
Proof.
  intros Hs Hsd Hgd Hmg Hig Hfit Hfiti Hvals.
  destruct st as [ss w]. simpl in Hs, Hsd, Hgd, Hvals. subst ss.
  unfold gradient_fn, session_run, logged.
  fold (fetch_dict cl fm_masks img). run_binds. rewrite Hsd. simpl.
  assert (Forall (fun kv : tensor * ndarray R =>
                    t_graph kv.1 = g /\ shape_fits kv.2 kv.1 = true)
            (fetch_dict cl fm_masks img)) as Hfeed.
  { unfold fetch_dict. apply dict_set_values; [|done].
    apply dict_of_values. clear -Hmg Hfit.
    induction Hfit as [|mask a ms fs Hma _ IH]; simpl; [constructor|].
    inversion Hmg; subst. constructor; [done|]. by apply IH. }
  rewrite (forallb_Forall (fun kv : tensor * ndarray R =>
             bool_decide (t_graph kv.1 = g)) _ _
             (fun kv Hk => bool_decide_eq_true_2 _ (proj1 Hk)) Hfeed).
  rewrite (forallb_Forall (fun kv : tensor * ndarray R => shape_fits kv.2 kv.1)
             _ _ (fun kv Hk => proj2 Hk) Hfeed).
  simpl. run_binds. unfold lift.
  assert (forM (fun f : option tensor =>
                  match f with
                  | Some t => if decide (t_graph t = g) then Ok t else Raise ValueError
                  | None => Raise TypeError
                  end) (grads cl)
          = Ok (omap id (grads cl)) /\
          forM (eval (w_backend w) (g_model gd) (fetch_dict cl fm_masks img))
            (omap id (grads cl)) = Ok vals) as [-> Hev].
  { clear -Hvals. induction Hvals as [|gr v grs vs (t & -> & Hg & Hv) _ [IH1 IH2]];
      [done|]. split.
    - simpl. rewrite decide_True by done. simpl. by rewrite IH1.
    - change (omap id (Some t :: grs)) with (t :: omap id grs). simpl.
      rewrite Hv. simpl. by rewrite IH2. }
  rewrite Hgd, Hev. done.
Qed.

Lemma fm_entries_masks m it id outs gs ms shs i mask :
  fm_entries m it id outs gs ms shs -> ms !! i = Some mask ->
  exists sh, mask = TPlaceholder (t_graph it) (id + i) sh.
Proof.
  intros Hent Hi.
  destruct (fm_entries_length _ _ _ _ _ _ _ Hent) as (_ & Hlm & _).
  destruct (lookup_lt_is_Some_2 outs i) as [ot Hot].
  { rewrite <- Hlm. by eapply lookup_lt_Some. }
  destruct (fm_entries_lookup _ _ _ _ _ _ _ _ _ Hent Hot)
    as (g & mask' & sh & _ & Hm & _ & (dims & d1 & d2 & _ & _ & _ & _ & -> & _)).
  assert (mask = TPlaceholder (t_graph it) (id + i)
                   [1%N; Z.to_N d1; Z.to_N d2; 1%N]) as -> by congruence.
  by eexists.
Qed.

Lemma fm_entries_NoDup m it id outs gs ms shs :
  fm_entries m it id outs gs ms shs ->
  (forall k sh, it = TPlaceholder (t_graph it) k sh -> (k < id)%nat) ->
  NoDup (it :: ms).
Proof.
  intros Hent Hit. apply NoDup_cons. split.
  - intros Hin. apply list_elem_of_lookup in Hin as [i Hi].
    destruct (fm_entries_masks _ _ _ _ _ _ _ _ _ Hent Hi) as [sh Heq].
    specialize (Hit _ _ Heq). lia.
  - apply NoDup_alt. intros i j x Hi Hj.
    destruct (fm_entries_masks _ _ _ _ _ _ _ _ _ Hent Hi) as [sh1 H1].
    destruct (fm_entries_masks _ _ _ _ _ _ _ _ _ Hent Hj) as [sh2 H2].
    rewrite H1 in H2. injection H2 as H2 _. lia.
Qed.

Lemma fetch_dict_input cl fm_masks img :
  dict_get (fetch_dict cl fm_masks img) (input_tensor cl) = Some img.
Proof. apply dict_get_set_eq. Qed.

Lemma fetch_dict_mask cl fm_masks img i mask a :
  NoDup (input_tensor cl :: receptive_field_masks cl) ->
  receptive_field_masks cl !! i = Some mask -> fm_masks !! i = Some a ->
  dict_get (fetch_dict cl fm_masks img) mask = Some a.
Proof.
  intros Hnd Hm Ha. apply NoDup_cons in Hnd as [Hnot Hnd].
  unfold fetch_dict. rewrite dict_get_set_ne.
  - by apply (dict_of_zip_lookup _ _ i).
  - intros Heq. apply Hnot. rewrite Heq. by eapply list_elem_of_lookup_2.
Qed.

Lemma fm_entry_grad_graph m it id ot g mask sh t :
  fm_entry m it id ot g mask sh -> g = Some t ->
  t = TGrad (fake_loss ot mask) it /\ t_graph t = t_graph it.
Proof.
  intros (dims & d1 & d2 & _ & _ & _ & _ & _ & Hg & ->).
  destruct (connected _ _ _); [|discriminate]. intros [= <-]. done.
Qed.

(** C5.  After a successful prepare call of either class the returned
    output shapes, the gradients and the mask placeholders are as many
    as the output tensors and stand at the positions of their output
    tensors.  The returned gradient function feeds the i-th mask to the
    i-th placeholder and the image to the input tensor; whenever it
    returns, it returns one value per output tensor, the i-th being the
    value of the gradient of the i-th fake loss, and it has made exactly
    one run of the session with all the gradients as fetches.  Called
    right after the prepare call with masks and an image that fit, it
    does return whenever every gradient is defined and has a value. *)
Theorem gradients_aligned (c : prepare_call) (st : state)
    (cl : closure) (gi : GridShape) (go : list GridShape) (st' : state) :
  _prepare_gradient_func c st = (Ok (cl, gi, go), st') ->
  exists outs m s gd,
    resolved_outputs c st (input_tensor cl) outs /\
    length go = length outs /\
    length (grads cl) = length outs /\
    length (receptive_field_masks cl) = length outs /\
    (forall i ot, outs !! i = Some ot ->
       exists id g mask sh,
         grads cl !! i = Some g /\
         receptive_field_masks cl !! i = Some mask /\
         go !! i = Some (GridShape_of sh) /\
         fm_entry m (input_tensor cl) id ot g mask sh) /\
    (forall fm_masks img,
       dict_get (fetch_dict cl fm_masks img) (input_tensor cl) = Some img /\
       forall i mask a,
         receptive_field_masks cl !! i = Some mask -> fm_masks !! i = Some a ->
         dict_get (fetch_dict cl fm_masks img) mask = Some a) /\
    (forall fm_masks img sta vals stb,
       gradient_fn cl fm_masks img sta = (Ok vals, stb) ->
       length vals = length outs /\
       exists s' gd',
         stb = logged (EvRun s' (grads cl) (fetch_dict cl fm_masks img)) sta /\
         forall i ot, outs !! i = Some ot ->
           exists mask v,
             receptive_field_masks cl !! i = Some mask /\
             vals !! i = Some v /\
             eval (w_backend (tf sta)) (g_model gd')
               (fetch_dict cl fm_masks img)
               (TGrad (fake_loss ot mask) (input_tensor cl)) = Ok v) /\
    _session st' = Some s /\ is_live (tf st') s /\
    w_graphs (tf st') !! t_graph (input_tensor cl) = Some gd /\
    g_model gd = m /\
    (forall fm_masks img vals,
       Forall2 (fun mask a => shape_fits a mask = true)
         (receptive_field_masks cl) fm_masks ->
       shape_fits img (input_tensor cl) = true ->
       Forall2 (fun gr v => exists t, gr = Some t /\
                  eval (w_backend (tf st')) m
                    (fetch_dict cl fm_masks img) t = Ok v) (grads cl) vals ->
       gradient_fn cl fm_masks img st'
       = (Ok vals, logged (EvRun s (grads cl) (fetch_dict cl fm_masks img)) st')).
Proof.
  intros Hr.
  destruct (prepare_Ok _ _ _ _ _ _ Hr)
    as (outs & shs & m & gd & st2 & ish & id0 & Hres & Hgit & _ & _ & -> & Hent
        & Hin & Hgd & Hm & _ & ->).
  destruct (fm_entries_length _ _ _ _ _ _ _ Hent) as (Hlg & Hlm & Hls).
  assert (NoDup (input_tensor cl :: receptive_field_masks cl)) as Hnd.
  { eapply fm_entries_NoDup; [done|]. rewrite Hgit. apply Hin. }
  exists outs, m, (length (w_sessions (tf st2))), gd.
  split; [done|]. rewrite length_fmap. split; [done|]. split; [done|].
  split; [done|]. split; [|split; [|split; [|split; [|split; [|split; [|split]]]]]].
  - intros i ot Hi.
    destruct (fm_entries_lookup _ _ _ _ _ _ _ _ _ Hent Hi)
      as (g & mask & sh & Hg & Hmask & Hsh & Hentry).
    exists (id0 + i)%nat, g, mask, sh. rewrite list_lookup_fmap, Hsh. done.
  - intros fm_masks img. split; [apply fetch_dict_input|].
    intros i mask a. by apply fetch_dict_mask.
  - intros fm_masks img sta vals stb Hg.
    apply gradient_fn_Ok in Hg as (s' & g' & gd' & _ & _ & _ & Hvals & ->).
    split; [apply Forall2_length in Hvals; lia|].
    exists s', gd'. split; [done|]. intros i ot Hi.
    destruct (fm_entries_lookup _ _ _ _ _ _ _ _ _ Hent Hi)
      as (g & mask & sh & Hgi & Hmask & _ & Hentry).
    destruct (Forall2_lookup_l _ _ _ _ _ Hvals Hgi) as (v & Hv & t & -> & _ & Hev).
    destruct (fm_entry_grad_graph _ _ _ _ _ _ _ _ Hentry eq_refl) as [-> _].
    by exists mask, v.
  - done.
  - exists (length (w_graphs (tf st))). simpl. apply lookup_snoc.
  - by rewrite Hgit.
  - done.
  - intros fm_masks img vals Hfit Hfiti Hvals.
    apply (gradient_fn_returns _ _ _ _ _ (length (w_graphs (tf st))) gd).
    + done.
    + simpl. apply lookup_snoc.
    + done.
    + apply Forall_forall. intros mask Hmask.
      apply list_elem_of_lookup in Hmask as [i Hi].
      destruct (fm_entries_masks _ _ _ _ _ _ _ _ _ Hent Hi) as [sh ->]. by simpl.
    + done.
    + done.
    + done.
    + apply Forall2_same_length_lookup. split; [by eapply Forall2_length|].
      intros i gr v Hgr Hv.
      destruct (Forall2_lookup_lr _ _ _ _ _ _ Hvals Hgr Hv) as (t & -> & Hev).
      exists t. split; [done|]. split; [|by rewrite Hm].
      destruct (lookup_lt_is_Some_2 outs i) as [ot Hot].
      { rewrite <- Hlg. by eapply lookup_lt_Some. }
      destruct (fm_entries_lookup _ _ _ _ _ _ _ _ _ Hent Hot)
        as (g & mask & sh & Hg & _ & _ & Hentry).
      assert (g = Some t) as -> by congruence.
      destruct (fm_entry_grad_graph _ _ _ _ _ _ _ _ Hentry eq_refl) as [_ ->].
      done.
Qed.

(** ** The value of the fake loss *)

Lemma concat_fmap_bind {A B} (f : A -> list B) (l : list A) :
  concat (f <$> l) = l ≫= f.
Proof. induction l as [|x l IH]; simpl; [done|]. by f_equal. Qed.

Lemma fmap_seq_tabulate {A} (d : A) (l : list A) :
  l = (fun i => default d (l !! i)) <$> seq 0 (length l).
Proof.
  apply list_eq. intros i. rewrite list_lookup_fmap.
  destruct (decide (i < length l)%nat) as [Hlt|Hge].
  - rewrite lookup_seq_lt by done. simpl.
    destruct (lookup_lt_is_Some_2 l i Hlt) as [x ->]. done.
  - rewrite lookup_seq_ge by lia. simpl. apply lookup_ge_None. lia.
Qed.

Lemma bzip_singleton_r {A B C} (f : A -> B -> C) la b :
  bzip f la [b] = (fun a => f a b) <$> la.
Proof. by destruct la as [|a [|a' la]]. Qed.

Lemma bzip_same_length {A B C} (f : A -> B -> C) la lb :
  length la = length lb -> bzip f la lb = zip_with f la lb.
Proof.
  destruct la as [|a [|a' la]], lb as [|b [|b' lb]]; try done.
Qed.

Lemma fake_loss_entries (out mask : ndarray R) n h w c :
  nd_wf out -> nd_wf mask ->
  nd_shape out = (n, h, w, c) -> nd_shape mask = (1%nat, h, w, 1%nat) ->
  bzip (bzip (bzip (bzip rmul)))
    (map (map (map (fun px => [mean px]))) (nd_data out)) (nd_data mask)
  = (fun b => (fun i => (fun j =>
       [rmul (mean (pixel out b i j)) (entry mask 0 i j 0)])
       <$> seq 0 w) <$> seq 0 h) <$> seq 0 n.
Proof.
  unfold nd_wf. intros Hwo Hwm Hso Hsm. rewrite Hso in Hwo. rewrite Hsm in Hwm.
  destruct Hwo as [Hno Hwo]. destruct Hwm as [Hnm Hwm].
  destruct (nd_data mask) as [|mimg [|]] eqn:Hmd; try done.
  apply Forall_singleton in Hwm as [Hhm Hwm].
  rewrite bzip_singleton_r. change map with (@fmap list _). 
  rewrite <- list_fmap_compose.
  apply list_eq. intros b. rewrite !list_lookup_fmap.
  destruct (nd_data out !! b) as [img|] eqn:Hb.
  2:{ apply lookup_ge_None in Hb. rewrite lookup_seq_ge by lia. done. }
  rewrite lookup_seq_lt by (apply lookup_lt_Some in Hb; lia). simpl. f_equal.
  pose proof (proj1 (Forall_lookup _ _) Hwo _ _ Hb) as [Hh Hwo'].
  rewrite bzip_same_length by (rewrite length_fmap; lia).
  apply list_eq. intros i. rewrite lookup_zip_with, !list_lookup_fmap.
  destruct (img !! i) as [row|] eqn:Hi.
  2:{ apply lookup_ge_None in Hi. rewrite lookup_seq_ge by lia. done. }
  rewrite lookup_seq_lt by (apply lookup_lt_Some in Hi; lia). simpl.
  destruct (lookup_lt_is_Some_2 mimg i) as [mrow Hmi];
    [apply lookup_lt_Some in Hi; lia|].
  rewrite Hmi. simpl. f_equal.
  pose proof (proj1 (Forall_lookup _ _) Hwo' _ _ Hi) as [Hw Hwo''].
  pose proof (proj1 (Forall_lookup _ _) Hwm _ _ Hmi) as [Hw' Hwm'].
  rewrite bzip_same_length by (rewrite length_fmap; lia).
  apply list_eq. intros j. rewrite lookup_zip_with, !list_lookup_fmap.
  destruct (row !! j) as [px|] eqn:Hj.
  2:{ apply lookup_ge_None in Hj. rewrite lookup_seq_ge by lia. done. }
  rewrite lookup_seq_lt by (apply lookup_lt_Some in Hj; lia). simpl.
  destruct (lookup_lt_is_Some_2 mrow j) as [mpx Hmj];
    [apply lookup_lt_Some in Hj; lia|].
  rewrite Hmj. simpl. f_equal.
  pose proof (proj1 (Forall_lookup _ _) Hwm' _ _ Hmj) as Hc.
  destruct mpx as [|v [|]]; try done.
  unfold pixel, entry, nd_get. rewrite Hb, Hmd. simpl. rewrite Hi, Hmi. simpl.
  rewrite Hj, Hmj. done.
Qed.

Lemma concat3_tabulate (f : nat -> nat -> nat -> list R) n h w :
  concat (concat (concat
    ((fun b => (fun i => (fun j => f b i j) <$> seq 0 w) <$> seq 0 h) <$> seq 0 n)))
  = b ← seq 0 n; i ← seq 0 h; j ← seq 0 w; f b i j.
Proof.
  generalize (seq 0 n) as bs. intros bs.
  induction bs as [|b bs IH]; [done|].
  rewrite fmap_cons, concat_cons, concat_app, concat_app, IH. simpl. f_equal.
  generalize (seq 0 h) as js. intros js.
  induction js as [|i js IHi]; [done|].
  rewrite fmap_cons, concat_cons, concat_app, IHi. simpl. f_equal.
  apply concat_fmap_bind.
Qed.

Lemma fake_loss_value be m feed ot mask (vo vm : ndarray R) n h w c :
  unfed feed ot mask ->
  eval be m feed ot = Ok (VArr vo) -> eval be m feed mask = Ok (VArr vm) ->
  nd_wf vo -> nd_wf vm ->
  nd_shape vo = (n, h, w, c) -> nd_shape vm = (1%nat, h, w, 1%nat) ->
  eval be m feed (fake_loss ot mask) = Ok (VScalar (spec_fake_loss vo vm)).
Proof.
  intros (U1 & U2 & U3) Ho Hm Hwo Hwm Hso Hsm.
  unfold fake_loss in *. simpl. rewrite U3, U2, U1. rewrite Ho, Hm. simpl.
  unfold nd_mul, nd_channel_mean. rewrite Hso, Hsm. simpl.
  assert (bdim n 1 = Some n) as ->.
  { unfold bdim. destruct (n =? 1)%nat eqn:E; [done|]. simpl.
    by destruct (n =? 1)%nat. }
  assert (forall k, bdim k k = Some k) as Hk.
  { intros k. unfold bdim. by rewrite Nat.eqb_refl. }
  rewrite !Hk. simpl. unfold nd_entries, spec_fake_loss. simpl. rewrite Hso.
  rewrite (fake_loss_entries vo vm n h w c) by done.
  by rewrite concat3_tabulate.
Qed.

(** C1.  Whenever [_define_fm_gradient] returns, what it returns is the
    gradient with respect to the input tensor of the scalar
    [fake_loss]: the tensor [tf.gradients] gives for that scalar and the
    input tensor, [None] when the scalar does not depend on the input.
    The scalar is the mean of the product of the mask with the output
    averaged over its channel dimension (the dimension kept): for an
    output value of shape [(n, h, w, c)] and a mask value of shape
    [(1, h, w, 1)] it evaluates to [spec_fake_loss], the formula of the
    specification; and the returned tensor evaluates to the backend's
    derivative of that scalar as a function of the input value. *)
Theorem define_fm_gradient_spec (it ot mask : tensor) (st : state)
    (g : option tensor) (st' : state) :
  _define_fm_gradient it ot mask st = (Ok g, st') ->
  (exists gd, w_graphs (tf st) !! t_graph ot = Some gd /\
     g = if connected (g_model gd) (fake_loss ot mask) it
         then Some (TGrad (fake_loss ot mask) it) else None) /\
  (forall be m feed vo vm n h w c,
     unfed feed ot mask ->
     eval be m feed ot = Ok (VArr vo) -> eval be m feed mask = Ok (VArr vm) ->
     nd_wf vo -> nd_wf vm ->
     nd_shape vo = (n, h, w, c) -> nd_shape vm = (1%nat, h, w, 1%nat) ->
     eval be m feed (fake_loss ot mask) = Ok (VScalar (spec_fake_loss vo vm))) /\
  (forall be m feed x0,
     dict_get feed (TGrad (fake_loss ot mask) it) = None ->
     eval be m feed it = Ok (VArr x0) ->
     eval be m feed (TGrad (fake_loss ot mask) it)
     = VArr <$> be_grad be
         (fun v => r ← eval be m (dict_set feed it v) (fake_loss ot mask);
                   as_scalar r) x0).
Proof.
  intros Hr. split; [|split].
  - apply define_fm_gradient_Ok in Hr as (gd & Hgd & _ & _ & ->). by exists gd.
  - intros be m feed vo vm n h w c. apply fake_loss_value.
  - intros be m feed x0 Hfed Hx. 
    change (eval be m feed (TGrad (fake_loss ot mask) it)) with
      (match dict_get feed (TGrad (fake_loss ot mask) it) with
       | Some v => Ok (VArr v)
       | None =>
           vx ← eval be m feed it;
           x0 ← as_array vx;
           VArr <$> be_grad be
             (fun v => r ← eval be m (dict_set feed it v) (fake_loss ot mask);
                       as_scalar r) x0
       end).
    rewrite Hfed, Hx. done.
Qed.

(** ** Failing lookups *)




























(** ** The effect of a prepare call, whatever its outcome *)

Lemma tf_Graph_then {A} (k : nat -> M A) st :
  (forall g, steps builds (k g)) ->
  (length (w_graphs (tf st)) < length (w_graphs (tf ((tf_Graph ≫= k) st).2)))%nat /\
  builds st ((tf_Graph ≫= k) st).2.
Proof.
  intros Hk. pose proof (steps_bind builds tf_Graph k builds_tf_Graph Hk st) as Hb.
  split; [|done]. rewrite bind_run. simpl.
  match goal with |- context [k ?g ?s] => specialize (Hk g s) end.
  destruct Hk as (_ & _ & _ & _ & Hlen). simpl in Hlen.
  rewrite length_app in Hlen. simpl in Hlen.
  destruct (k _ _) as [[a|e] st1]; simpl in *; lia.
Qed.

Lemma build_by_name_grows f sh name st :
  (length (w_graphs (tf st))
   < length (w_graphs (tf (build_by_name f sh name st).2)))%nat.
Proof.
  unfold build_by_name. apply tf_Graph_then. intros g.
  apply steps_bind; [apply _|apply builds_call_user|]. intros m.
  apply steps_bind; [apply _|apply builds_install_model|]. intros _.
  apply steps_bind; [apply _|apply builds_get_operation_by_name|]. intros op.
  apply steps_bind; [apply _|apply steps_lift, _|]. intros it.
  apply steps_bind; [apply _|apply steps_lift, _|]. intros ish.
  apply steps_ret, _.
Qed.

Lemma build_by_construction_grows f sh st :
  (length (w_graphs (tf st))
   < length (w_graphs (tf (build_by_construction f sh st).2)))%nat.
Proof.
  unfold build_by_construction. apply tf_Graph_then. intros g.
  apply steps_bind; [apply _|apply builds_tf_placeholder|]. intros it.
  apply steps_bind; [apply _|apply steps_lift, _|]. intros ish.
  apply steps_bind; [apply _|apply builds_call_user|]. intros mf.
  apply steps_bind; [apply _|apply builds_install_model|]. intros _.
  apply steps_ret, _.
Qed.

Lemma prepare_effect c st :
  exists st2, builds (after_close st) st2 /\
    (length (w_graphs (tf st)) < length (w_graphs (tf st2)))%nat /\
    ((_prepare_gradient_func c st).2 = st2 \/
     (_prepare_gradient_func c st).2
     = after_finish (length (w_graphs (tf st))) st2).
Proof.
  destruct c as [f sh name os|f sh]; simpl.
  - unfold TFReceptiveField_prepare_gradient_func.
    rewrite bind_run, close_previous_run, bind_run.
    pose proof (builds_build_by_name f sh name (after_close st)) as B1.
    pose proof (build_by_name_grows f sh name (after_close st)) as G1.
    rewrite after_close_graphs in G1.
    destruct (build_by_name f sh name (after_close st)) as [[o|e] sb] eqn:Hb;
      simpl in *.
    2:{ exists sb. split_and!; [done|done|by left]. }
    destruct o as [[g it] ish].
    apply build_by_name_Ok in Hb as (m & gd & -> & _).
    rewrite after_close_graphs. rewrite bind_run. simpl.
    pose proof (steps_for_each builds (by_name_step (length (w_graphs (tf st))) it)
                  os (mkLists [] [] []) (builds_by_name_step _ it) sb) as B2.
    destruct (for_each _ os _ sb) as [[acc|e] sl]; simpl in *.
    2:{ exists sl. pose proof B2 as (_ & _ & _ & _ & Hl).
        split_and!; [by etrans|lia|by left]. }
    exists sl. pose proof B2 as (_ & _ & _ & _ & Hl).
    split_and!; [by etrans|lia|].
    right. destruct (finish_run (length (w_graphs (tf st))) it ish acc sl)
      as (r & -> & _). done.
  - unfold TFFeatureMapsReceptiveField_prepare_gradient_func.
    rewrite bind_run, close_previous_run, bind_run.
    pose proof (builds_build_by_construction f sh (after_close st)) as B1.
    pose proof (build_by_construction_grows f sh (after_close st)) as G1.
    rewrite after_close_graphs in G1.
    destruct (build_by_construction f sh (after_close st)) as [[o|e] sb] eqn:Hb;
      simpl in *.
    2:{ exists sb. split_and!; [done|done|by left]. }
    destruct o as [[[g it] ish] outs].
    apply build_by_construction_Ok in Hb as (m & gd & -> & _).
    rewrite after_close_graphs. rewrite bind_run. simpl.
    pose proof (steps_for_each builds (fm_body (length (w_graphs (tf st))) it)
                  outs (mkLists [] [] []) (builds_fm_body _ it) sb) as B2.
    destruct (for_each _ outs _ sb) as [[acc|e] sl]; simpl in *.
    2:{ exists sl. pose proof B2 as (_ & _ & _ & _ & Hl).
        split_and!; [by etrans|lia|by left]. }
    exists sl. pose proof B2 as (_ & _ & _ & _ & Hl).
    split_and!; [by etrans|lia|].
    right. destruct (finish_run (length (w_graphs (tf st))) it ish acc sl)
      as (r & -> & _). done.
Qed.

(** ** Sessions along a sequence of calls *)

Lemma after_close_trace st :
  w_trace (tf (after_close st)) = w_trace (tf st) ++ close_events st.
Proof.
  unfold after_close, close_events. destruct (_session st); simpl.
  - by rewrite <- app_assoc.
  - by rewrite app_nil_r.
Qed.

Lemma after_close_session st : _session (after_close st) = _session st.
Proof. unfold after_close. by destruct (_session st) eqn:E. Qed.

Lemma after_close_sessions_length st :
  length (w_sessions (tf (after_close st))) = length (w_sessions (tf st)).
Proof. unfold after_close. destruct (_session st); simpl; [|done]. apply length_alter. Qed.

Lemma after_close_lookup st s sd :
  w_sessions (tf (after_close st)) !! s = Some sd ->
  exists sd0, w_sessions (tf st) !! s = Some sd0 /\
    s_graph sd = s_graph sd0 /\
    (s_closed sd = false -> s_closed sd0 = false /\ _session st <> Some s).
Proof.
  unfold after_close. destruct (_session st) as [s0|] eqn:Hs; simpl.
  2:{ intros Hl. exists sd. split_and!; [done|done|]. intros Hc. by split. }
  rewrite list_lookup_alter. destruct (decide (s0 = s)) as [->|Hne].
  - destruct (w_sessions (tf st) !! s) as [sd0|]; [|done]. simpl.
    intros [= <-]. exists sd0. split_and!; [done|done|]. simpl. done.
  - intros Hl. exists sd. split_and!; [done|done|]. intros Hc. split; [done|].
    congruence.
Qed.



(** The effect of one call on trace, sessions and [self._session]. *)
Lemma run_call_effect k st :
  let st' := run_call k st in
  (_session st' = _session st /\
   w_sessions (tf st') = w_sessions (tf st) /\
   w_graphs (tf st') = w_graphs (tf st) /\
   exists new, w_trace (tf st') = w_trace (tf st) ++ new /\
     (new = [] \/ exists s f d, new = [EvRun s f d])) \/
  (exists st2, builds (after_close st) st2 /\
     (length (w_graphs (tf st)) < length (w_graphs (tf st2)))%nat /\
     (st' = st2 \/ st' = after_finish (length (w_graphs (tf st))) st2)).
Proof.
  destruct k as [c|cl ms img]; simpl.
  - right. apply prepare_effect.
  - left. destruct (_session st) as [s|] eqn:Hs.
    + rewrite (gradient_fn_state _ _ _ _ s Hs). unfold logged. simpl.
      split_and!; try done. eexists. split; [done|]. right. by eexists _, _, _.
    + unfold gradient_fn. rewrite bind_run. simpl. rewrite Hs. simpl.
      split_and!; try done. exists []. rewrite app_nil_r. split; [done|].
      by left.
Qed.
Lemma live_after_app a b l : live_after (a ++ b) l = live_after b (live_after a l).
Proof. unfold live_after. apply foldl_app. Qed.

Lemma at_most_one_length evs l : at_most_one evs l -> (length l <= 1)%nat.
Proof. destruct evs; simpl; tauto. Qed.

Lemma at_most_one_app a b l :
  at_most_one a l -> at_most_one b (live_after a l) -> at_most_one (a ++ b) l.
Proof.
  revert l. induction a as [|ev a IH]; intros l Ha Hb; simpl in *; [done|].
  destruct Ha as (Hl & Hev & Ha). split; [done|]. split; [done|]. by apply IH.
Qed.

Lemma at_most_one_app_l a b l : at_most_one (a ++ b) l -> at_most_one a l.
Proof.
  revert l. induction a as [|ev a IH]; intros l Hab; simpl in *.
  - split; [|done]. by eapply at_most_one_length.
  - destruct Hab as (Hl & Hev & Hab). split; [done|]. split; [done|]. by apply IH.
Qed.

Lemma at_most_one_final evs l :
  at_most_one evs l -> (length (live_after evs l) <= 1)%nat.
Proof.
  revert l. induction evs as [|ev evs IH]; intros l Hl; simpl in *; [tauto|].
  apply IH. tauto.
Qed.

Lemma at_most_one_prefix evs p l :
  at_most_one evs l -> p `prefix_of` evs -> (length (live_after p l) <= 1)%nat.
Proof.
  intros Hevs [k ->]. by apply at_most_one_final, (at_most_one_app_l _ k).
Qed.

Lemma at_most_one_new evs1 s g evs2 l :
  at_most_one (evs1 ++ EvNewSession s g :: evs2) l -> live_after evs1 l = [].
Proof.
  revert l. induction evs1 as [|ev evs1 IH]; intros l Hl; simpl in *.
  - tauto.
  - apply IH. tauto.
Qed.

Lemma at_most_one_close_events st l :
  (length l <= 1)%nat -> (forall x, x ∈ l -> _session st = Some x) ->
  at_most_one (close_events st) l /\ live_after (close_events st) l = [].
Proof.
  intros Hl Hx. unfold close_events. destruct (_session st) as [s|] eqn:Hs; simpl.
  - assert (filter (fun x => x <> s) l = []) as Hf.
    { destruct l as [|x [|y l]]; simpl in *; [done| |lia].
      specialize (Hx x (list_elem_of_here _ _)). injection Hx as ->.
      rewrite filter_cons_False; [done|]. by intros ?. }
    rewrite Hf. simpl. split_and!; try done; lia.
  - destruct l as [|x l]; [done|].
    by specialize (Hx x (list_elem_of_here _ _)).
Qed.

Lemma session_inv_step n0 st emitted k :
  session_inv n0 st emitted ->
  exists new, w_trace (tf (run_call k st)) = w_trace (tf st) ++ new /\
    session_inv n0 (run_call k st) (emitted ++ new).
Proof.
  intros (Hone & Hlive & Hst).
  pose proof (at_most_one_final _ _ Hone) as Hlen.
  destruct (run_call_effect k st)
    as [(Hs & Hss & _ & new & Htr & Hnew)|(st2 & B & _ & Hst')].
  - exists new. split; [done|]. split; [|split].
    + apply at_most_one_app; [done|].
      destruct Hnew as [->|(s & f & d & ->)]; simpl; tauto.
    + intros x. rewrite live_after_app, Hs.
      destruct Hnew as [->|(s & f & d & ->)]; simpl; apply Hlive.
    + intros s [g Hg]. rewrite Hs. apply Hst. exists g. by rewrite <- Hss.
  - destruct B as (Bs & Bss & Btr & _ & _).
    rewrite after_close_session in Bs. rewrite after_close_trace in Btr.
    destruct (at_most_one_close_events st _ Hlen Hlive) as [Hc1 Hc2].
    assert (forall s, is_live (tf st2) s -> (s < n0)%nat) as Hlive2.
    { intros s [g Hg]. rewrite Bss in Hg.
      apply after_close_lookup in Hg as (sd0 & Hsd0 & Hgr & Hcl).
      destruct (Hcl eq_refl) as [Hc0 Hne].
      destruct (Hst s) as [?|?]; [|done|done].
      exists (s_graph sd0). rewrite Hsd0. f_equal. by destruct sd0; simpl in *; subst. }
    destruct Hst' as [->| ->].
    + exists (close_events st). split; [done|]. split; [|split].
      * by apply at_most_one_app.
      * intros x. rewrite live_after_app, Hc2. by intros ?%elem_of_nil.
      * intros s Hs. left. by apply Hlive2.
    + exists (close_events st ++
              [EvNewSession (length (w_sessions (tf st2))) (length (w_graphs (tf st)));
               EvRunInit (length (w_sessions (tf st2)))]).
      split; [|split; [|split]].
      * simpl. rewrite Btr, <- !app_assoc. done.
      * apply at_most_one_app; [done|]. apply at_most_one_app; [done|].
        rewrite Hc2. simpl. split_and!; try done; lia.
      * intros x. rewrite !live_after_app, Hc2. simpl.
        intros ->%list_elem_of_singleton. done.
      * intros s [g Hg]. simpl in *.
        apply lookup_snoc_Some in Hg as [[Hlt Hg]|[-> _]]; [|by right].
        left. apply Hlive2. by exists g.
Qed.

(** C6.  An estimator that starts without a session, used for any
    sequence of prepare calls and calls of gradient functions: in the
    trace of what it did, at every moment at most one of the sessions it
    created is open, and whenever it creates a session none is open,
    that is, the session of the earlier call has been closed before.  In
    the end every open session of the backend is one that existed before
    the estimator or is the one kept in [self._session]. *)
Theorem one_live_session (ks : list call) (st : state) :
  _session st = None ->
  exists emitted,
    w_trace (tf (run_calls ks st)) = w_trace (tf st) ++ emitted /\
    at_most_one emitted [] /\
    (forall evs, evs `prefix_of` emitted -> (length (live_after evs []) <= 1)%nat) /\
    (forall evs1 s g evs2,
       emitted = evs1 ++ EvNewSession s g :: evs2 -> live_after evs1 [] = []) /\
    (forall s, is_live (tf (run_calls ks st)) s ->
       (s < length (w_sessions (tf st)))%nat \/ _session (run_calls ks st) = Some s).
Proof.
  intros Hnone.
  assert (exists emitted,
            w_trace (tf (run_calls ks st)) = w_trace (tf st) ++ emitted /\
            session_inv (length (w_sessions (tf st))) (run_calls ks st) emitted)
    as (emitted & Htr & Hone & Hlive & Hst).
  { induction ks as [|k ks IH] using rev_ind.
    - exists []. rewrite app_nil_r. split; [done|]. split; [|split].
      + simpl. split; [lia|done].
      + by intros x ?%elem_of_nil.
      + intros s [g Hg]. left. by eapply lookup_lt_Some.
    - destruct IH as (emitted & Htr & Hinv).
      unfold run_calls in *. rewrite foldl_app. simpl.
      destruct (session_inv_step _ _ _ k Hinv) as (new & Htr' & Hinv').
      exists (emitted ++ new). split; [|done].
      rewrite Htr', Htr, <- app_assoc. done. }
  exists emitted. split_and!; try done.
  - intros evs. by apply at_most_one_prefix.
  - intros evs1 s g evs2 ->. by eapply at_most_one_new.
Qed.

(** ** A gradient function after another prepare call *)




Lemma forallb_exists_false {A} (p : A -> bool) (l : list A) x :
  x ∈ l -> p x = false -> forallb p l = false.
Proof.
  intros Hx Hp. induction l as [|y l IH]; [by apply elem_of_nil in Hx|].
  simpl. apply elem_of_cons in Hx as [<-|Hx].
  - by rewrite Hp.
  - rewrite IH by done. apply andb_false_r.
Qed.



(** ** Further properties of the adapter *)

(** *** The probing step in every case *)

Lemma py_index_spec (i : Z) (len : nat) :
  (- Z.of_nat len <= i < Z.of_nat len ->
     py_index i len = Ok (Z.to_nat (i `mod` Z.of_nat len))) /\
  (~ (- Z.of_nat len <= i < Z.of_nat len) -> py_index i len = Raise IndexError).
Proof.
  unfold py_index. split.
  - intros Hi. destruct (Z.leb_spec 0 i); simpl.
    + destruct (Z.ltb_spec i (Z.of_nat len)); [|lia].
      by rewrite Z.mod_small by lia.
    + destruct (Z.leb_spec (- Z.of_nat len) i); [|lia].
      destruct (Z.ltb_spec i 0); [|lia]. simpl.
      do 2 f_equal. symmetry.
      rewrite <- (Z.mod_add i 1 (Z.of_nat len)) by lia.
      rewrite Z.mul_1_l. apply Z.mod_small. lia.
  - intros Hi. destruct (Z.leb_spec 0 i); simpl.
    + destruct (Z.ltb_spec i (Z.of_nat len)); [lia|].
      destruct (Z.leb_spec (- Z.of_nat len) i); simpl; [|done].
      destruct (Z.ltb_spec i 0); [lia|done].
    + destruct (Z.leb_spec (- Z.of_nat len) i); simpl; [lia|done].
Qed.

Lemma np_zeros_spec (s : GridShape) :
  (0 <= gs_n s /\ 0 <= gs_h s /\ 0 <= gs_w s /\ 0 <= gs_c s ->
     is_ok (np_zeros s) = true) /\
  (~ (0 <= gs_n s /\ 0 <= gs_h s /\ 0 <= gs_w s /\ 0 <= gs_c s) ->
     np_zeros s = Raise ValueError).
Proof.
  split.
  - intros (Hn & Hh & Hw & Hc). by rewrite np_zeros_Ok.
  - intros Hno. unfold np_zeros.
    destruct (Z.ltb_spec (gs_n s) 0); [done|].
    destruct (Z.ltb_spec (gs_h s) 0); [done|].
    destruct (Z.ltb_spec (gs_w s) 0); [done|].
    destruct (Z.ltb_spec (gs_c s) 0); [done|].
    exfalso. apply Hno. lia.
Qed.

(** One turn of the probing loop, in every case. *)
Lemma probe_mask_spec (rf : extractor) (points : list GridPoint)
    (intensity : R) (fm : nat) (s : GridShape) :
  _output_shapes rf !! fm = Some s ->
  match points !! fm with
  | Some p =>
      (addressable s p ->
         probe_mask rf points intensity fm
         = Ok (impulse s (Z.to_nat (gp_y p `mod` gs_h s))
                         (Z.to_nat (gp_x p `mod` gs_w s)) intensity)) /\
      (~ addressable s p ->
         probe_mask rf points intensity fm = Raise IndexError \/
         probe_mask rf points intensity fm = Raise ValueError)
  | None =>
      (0 <= gs_h s /\ 0 <= gs_w s /\ 0 <= gs_c s ->
         probe_mask rf points intensity fm = Raise IndexError) /\
      (probe_mask rf points intensity fm = Raise IndexError \/
       probe_mask rf points intensity fm = Raise ValueError)
  end.
Proof.
  intros Hs. unfold probe_mask, py_getitem. rewrite Hs. simpl.
  destruct (decide (0 <= gs_h s /\ 0 <= gs_w s /\ 0 <= gs_c s)) as [Hd|Hd].
  - destruct Hd as (Hh & Hw & Hc).
    rewrite np_zeros_Ok by (simpl; lia). simpl.
    destruct (points !! fm) as [p|]; simpl; [|split; [done|by left]].
    unfold nd_set_yx0. simpl.
    destruct (py_index_spec (gp_y p) (Z.to_nat (gs_h s))) as [Hy1 Hy2].
    destruct (py_index_spec (gp_x p) (Z.to_nat (gs_w s))) as [Hx1 Hx2].
    destruct (py_index_spec 0 (Z.to_nat (gs_c s))) as [Hc1 Hc2].
    rewrite !Z2Nat.id in * by lia.
    split.
    + intros (_ & _ & Hc0 & Hy & Hx).
      rewrite Hy1, Hx1, Hc1 by lia. simpl.
      rewrite Z.mod_0_l by lia. done.
    + intros Hno. left.
      destruct (decide (- gs_h s <= gp_y p < gs_h s)) as [Hy|Hy];
        [rewrite Hy1 by done|by rewrite Hy2]. simpl.
      destruct (decide (- gs_w s <= gp_x p < gs_w s)) as [Hx|Hx];
        [rewrite Hx1 by done|by rewrite Hx2]. simpl.
      rewrite Hc2; [done|]. intros Hc0. apply Hno. unfold addressable. lia.
  - assert (np_zeros (replace_n s 1) = Raise ValueError) as ->.
    { apply np_zeros_spec. simpl. lia. }
    simpl. destruct (points !! fm) as [p|].
    + split; [|by right]. intros (? & ? & ? & _). lia.
    + split; [|by right]. intros ?. lia.
Qed.

Lemma forM_Ok_length {A B} (f : A -> result B) xs ys :
  forM f xs = Ok ys -> length ys = length xs.
Proof. intros Hf. apply forM_Ok_inv, Forall2_length in Hf. done. Qed.

Lemma forM_ext {A B} (f g : A -> result B) xs :
  (forall x, x ∈ xs -> f x = g x) -> forM f xs = forM g xs.
Proof.
  induction xs as [|x xs IH]; intros Hfg; simpl; [done|].
  rewrite (Hfg x) by left. rewrite IH; [done|].
  intros y Hy. apply Hfg. by right.
Qed.

(** A loop whose turns can raise only the errors of [P] raises only
    those. *)
Lemma forM_Raise {A B} (f : A -> result B) xs e (P : exn -> Prop) :
  (forall x e', x ∈ xs -> f x = Raise e' -> P e') ->
  forM f xs = Raise e -> P e.
Proof.
  induction xs as [|x xs IH]; intros Hall; simpl; [done|].
  destruct (f x) as [y|e'] eqn:Hx; simpl.
  - destruct (forM f xs) as [ys|e''] eqn:Hxs; simpl; [done|].
    intros [= <-]. apply IH; [|done]. intros z e0 Hz. apply Hall. by right.
  - intros [= <-]. apply (Hall x); [left|done].
Qed.

Lemma probe_arguments_Ok_inv (rf : extractor) points intensity masks base :
  probe_arguments rf points intensity = Ok (masks, base) ->
  forM (probe_mask rf points intensity) (seq 0 (num_feature_maps rf)) = Ok masks /\
  np_zeros (replace_n (_input_shape rf) 1) = Ok base.
Proof.
  unfold probe_arguments. simpl.
  destruct (forM _ _) as [ms|]; simpl; [|done].
  destruct (np_zeros _) as [b|]; simpl; [|done].
  by intros [= -> ->].
Qed.

Lemma probe_arguments_mask (rf : extractor) points intensity masks base fm s :
  probe_arguments rf points intensity = Ok (masks, base) ->
  _output_shapes rf !! fm = Some s ->
  exists m, masks !! fm = Some m /\ probe_mask rf points intensity fm = Ok m.
Proof.
  intros Hargs Hs. apply probe_arguments_Ok_inv in Hargs as [Hms _].
  apply forM_Ok_inv in Hms.
  assert (seq 0 (num_feature_maps rf) !! fm = Some fm) as Hfm.
  { apply lookup_seq. split; [done|]. unfold num_feature_maps.
    by apply lookup_lt_Some in Hs. }
  destruct (Forall2_lookup_l _ _ _ _ _ Hms Hfm) as (m & Hm & Hpm).
  by exists m.
Qed.

Lemma probe_arguments_probe_ok (rf : extractor) points intensity masks base :
  probe_arguments rf points intensity = Ok (masks, base) -> probe_ok rf points.
Proof.
  intros Hargs.
  destruct (probe_arguments_Ok_inv _ _ _ _ _ Hargs) as [_ Hbase].
  unfold probe_ok. split_and!.
  - destruct (np_zeros_spec (replace_n (_input_shape rf) 1)) as [_ Hz].
    destruct (decide (0 <= gs_h (_input_shape rf))); [done|].
    rewrite Hz in Hbase; [done|]. simpl. lia.
  - destruct (np_zeros_spec (replace_n (_input_shape rf) 1)) as [_ Hz].
    destruct (decide (0 <= gs_w (_input_shape rf))); [done|].
    rewrite Hz in Hbase; [done|]. simpl. lia.
  - destruct (np_zeros_spec (replace_n (_input_shape rf) 1)) as [_ Hz].
    destruct (decide (0 <= gs_c (_input_shape rf))); [done|].
    rewrite Hz in Hbase; [done|]. simpl. lia.
  - intros fm s Hs.
    destruct (probe_arguments_mask _ _ _ _ _ _ _ Hargs Hs) as (m & _ & Hpm).
    pose proof (probe_mask_spec rf points intensity fm s Hs) as Hspec.
    destruct (points !! fm) as [p|].
    + exists p. split; [done|]. destruct Hspec as [_ Hno].
      destruct (decide (0 <= gs_h s /\ 0 <= gs_w s /\ 0 < gs_c s /\
                        - gs_h s <= gp_y p < gs_h s /\
                        - gs_w s <= gp_x p < gs_w s)) as [Hd|Hd]; [done|].
      destruct (Hno Hd) as [He|He]; congruence.
    + destruct Hspec as [_ [He|He]]; congruence.
Qed.

Lemma probe_ok_arguments (rf : extractor) points intensity :
  probe_ok rf points ->
  exists masks base, probe_arguments rf points intensity = Ok (masks, base) /\
    length masks = num_feature_maps rf.
Proof.
  intros (Hh & Hw & Hc & Hpts).
  destruct (forM_total (probe_mask rf points intensity)
              (seq 0 (num_feature_maps rf))) as [masks Hmasks].
  { intros fm Hfm. apply elem_of_seq in Hfm as [_ Hfm]. simpl in Hfm.
    destruct (lookup_lt_is_Some_2 (_output_shapes rf) fm Hfm) as [s Hs].
    destruct (Hpts fm s Hs) as (p & Hp & Hadd).
    pose proof (probe_mask_spec rf points intensity fm s Hs) as Hspec.
    rewrite Hp in Hspec. destruct Hspec as [Hok _]. eexists. by apply Hok. }
  unfold probe_arguments. rewrite Hmasks. simpl.
  rewrite np_zeros_Ok by (simpl; lia). simpl.
  eexists _, _. split; [done|].
  apply forM_Ok_length in Hmasks. by rewrite Hmasks, length_seq.
Qed.

Lemma probe_arguments_errors (rf : extractor) points intensity e :
  probe_arguments rf points intensity = Raise e ->
  e = IndexError \/ e = ValueError.
Proof.
  unfold probe_arguments. simpl.
  destruct (forM _ _) as [ms|e'] eqn:Hms; simpl.
  - destruct (np_zeros _) as [b|e'] eqn:Hb; simpl; [done|].
    intros [= <-]. right. unfold np_zeros in Hb.
    case_match; [by injection Hb as <-|done].
  - intros [= <-].
    apply (forM_Raise _ _ _ (fun e => e = IndexError \/ e = ValueError)) in Hms;
      [done|].
    intros fm e0 Hfm Hraise. apply elem_of_seq in Hfm as [_ Hfm]. simpl in Hfm.
    destruct (lookup_lt_is_Some_2 (_output_shapes rf) fm Hfm) as [s Hs].
    pose proof (probe_mask_spec rf points intensity fm s Hs) as Hspec.
    destruct (points !! fm) as [p|].
    + destruct Hspec as [Hok Hno].
      destruct (decide (0 <= gs_h s /\ 0 <= gs_w s /\ 0 < gs_c s /\
                        - gs_h s <= gp_y p < gs_h s /\
                        - gs_w s <= gp_x p < gs_w s)) as [Hd|Hd].
      * rewrite (Hok Hd) in Hraise. done.
      * destruct (Hno Hd) as [He|He]; rewrite He in Hraise;
          injection Hraise as <-; auto.
    + destruct Hspec as [_ [He|He]]; rewrite He in Hraise;
        injection Hraise as <-; auto.
Qed.


Lemma impulse_get (s : GridShape) (iy ix : nat) (v : R) (i j ch : nat) :
  (i < Z.to_nat (gs_h s))%nat -> (j < Z.to_nat (gs_w s))%nat ->
  (ch < Z.to_nat (gs_c s))%nat ->
  nd_get (impulse s iy ix v) 0 i j ch
  = Some (if decide (i = iy /\ j = ix /\ ch = 0%nat) then v else r0).
Proof. apply impulse_entry. Qed.

(** X3.  The coordinates of a point are indices of Python: whenever the
    masks are built, [points[fm].y] lies in [-h, h) and [points[fm].x]
    in [-w, w), and the impulse of feature map [fm] stands at row
    [y mod h] and column [x mod w] of channel 0, so a negative
    coordinate counts from the end of the grid. *)
Theorem negative_coordinates_wrap (rf : extractor) (points : list GridPoint)
    (intensity : R) (masks : list (ndarray R)) (base : ndarray R)
    (fm : nat) (s : GridShape) (p : GridPoint) :
  probe_arguments rf points intensity = Ok (masks, base) ->
  _output_shapes rf !! fm = Some s -> points !! fm = Some p ->
  - gs_h s <= gp_y p < gs_h s /\ - gs_w s <= gp_x p < gs_w s /\
  exists m, masks !! fm = Some m /\
    forall i j ch,
      (i < Z.to_nat (gs_h s))%nat -> (j < Z.to_nat (gs_w s))%nat ->
      (ch < Z.to_nat (gs_c s))%nat ->
      nd_get m 0 i j ch =
        Some (if decide (Z.of_nat i = gp_y p `mod` gs_h s /\
                         Z.of_nat j = gp_x p `mod` gs_w s /\ ch = 0%nat)
              then intensity else r0).
Proof.
  intros Hargs Hs Hp.
  destruct (probe_arguments_probe_ok _ _ _ _ _ Hargs) as (_ & _ & _ & Hpts).
  destruct (Hpts fm s Hs) as (p' & Hp' & Hadd).
  assert (p' = p) as -> by congruence.
  destruct Hadd as (Hh & Hw & Hc & Hy & Hx).
  split; [done|]. split; [done|].
  destruct (probe_arguments_mask _ _ _ _ _ _ _ Hargs Hs) as (m & Hm & Hpm).
  exists m. split; [done|].
  pose proof (probe_mask_spec rf points intensity fm s Hs) as Hspec.
  rewrite Hp in Hspec. destruct Hspec as [Hok _].
  rewrite Hok in Hpm by (unfold addressable; lia). injection Hpm as <-.
  intros i j ch Hi Hj Hch. rewrite impulse_get by done.
  assert (0 <= gp_y p `mod` gs_h s < gs_h s) by (apply Z.mod_pos_bound; lia).
  assert (0 <= gp_x p `mod` gs_w s < gs_w s) by (apply Z.mod_pos_bound; lia).
  destruct (decide (i = Z.to_nat (gp_y p `mod` gs_h s) /\
                    j = Z.to_nat (gp_x p `mod` gs_w s) /\ ch = 0%nat))
    as [(-> & -> & ->)|Hne].
  - rewrite decide_True; [done|]. rewrite !Z2Nat.id by lia. done.
  - rewrite decide_False; [done|]. intros (Hi' & Hj' & ->). apply Hne.
    split_and!; [lia..|done].
Qed.


(** X5.  Points beyond the number of feature maps are never read: with
    at least one point per feature map, more points at the end of the
    list change nothing in the call. *)
Theorem surplus_points_ignored (rf : extractor) (points more : list GridPoint)
    (intensity : R) (st : state) :
  (num_feature_maps rf <= length points)%nat ->
  _get_gradient_from_grid_points rf (points ++ more) intensity st
  = _get_gradient_from_grid_points rf points intensity st.
Proof.
  intros Hlen. unfold _get_gradient_from_grid_points.
  assert (probe_arguments rf (points ++ more) intensity
          = probe_arguments rf points intensity) as ->; [|done].
  unfold probe_arguments.
  rewrite (forM_ext (probe_mask rf (points ++ more) intensity)
             (probe_mask rf points intensity)); [done|].
  intros fm Hfm. apply elem_of_seq in Hfm as [_ Hfm]. simpl in Hfm.
  unfold probe_mask, py_getitem. rewrite lookup_app_l by lia. done.
Qed.

(** X6.  The batch sizes kept in [_input_shape] and [_output_shapes]
    play no part in probing: two estimators with the same gradient
    function whose shapes agree once [n] is replaced by 1 make the same
    call. *)
Theorem probing_ignores_batch_sizes (rf rf' : extractor)
    (points : list GridPoint) (intensity : R) (st : state) :
  _gradient_function rf' = _gradient_function rf ->
  replace_n (_input_shape rf') 1 = replace_n (_input_shape rf) 1 ->
  (fun s => replace_n s 1) <$> _output_shapes rf'
  = (fun s => replace_n s 1) <$> _output_shapes rf ->
  _get_gradient_from_grid_points rf' points intensity st
  = _get_gradient_from_grid_points rf points intensity st.
Proof.
  intros Hg Hi Ho. unfold _get_gradient_from_grid_points. rewrite Hg.
  assert (probe_arguments rf' points intensity
          = probe_arguments rf points intensity) as ->; [|done].
  unfold probe_arguments. rewrite Hi.
  assert (num_feature_maps rf' = num_feature_maps rf) as Hn.
  { unfold num_feature_maps.
    by rewrite <- (length_fmap (fun s => replace_n s 1) (_output_shapes rf')),
                Ho, length_fmap. }
  rewrite Hn.
  rewrite (forM_ext (probe_mask rf' points intensity)
             (probe_mask rf points intensity)); [done|].
  intros fm Hfm. unfold probe_mask, py_getitem.
  assert (((fun s => replace_n s 1) <$> _output_shapes rf') !! fm
          = ((fun s => replace_n s 1) <$> _output_shapes rf) !! fm) as Hfmeq
    by (by rewrite Ho).
  rewrite !list_lookup_fmap in Hfmeq.
  destruct (_output_shapes rf' !! fm) as [s'|], (_output_shapes rf !! fm) as [s|];
    simpl in *; try done.
  assert (replace_n s' 1 = replace_n s 1) as Heq by congruence.
  by rewrite Heq.
Qed.

(** *** Static shapes that are not fully known *)

Lemma forM_dims_intro (dims : list Z) :
  Forall (fun d => 0 <= d) dims ->
  forM (fun d : option N => match d with
                            | Some n => Ok (Z.of_N n)
                            | None => Raise TypeError
                            end) ((fun d => Some (Z.to_N d)) <$> dims) = Ok dims.
Proof.
  induction 1 as [|d dims Hd _ IH]; [done|].
  rewrite fmap_cons. cbn [forM]. rewrite IH. simpl. by rewrite Z2N.id.
Qed.

Lemma forM_dims_Ok (ds : list (option N)) (dims : list Z) :
  forM (fun d : option N => match d with
                            | Some n => Ok (Z.of_N n)
                            | None => Raise TypeError
                            end) ds = Ok dims <->
  ds = (fun d => Some (Z.to_N d)) <$> dims /\ Forall (fun d => 0 <= d) dims.
Proof.
  split; [|intros [-> Hall]; by apply forM_dims_intro].
  revert dims. induction ds as [|d ds IH]; intros dims; simpl.
  - intros [= <-]. done.
  - destruct d as [n|]; simpl; [|done].
    destruct (forM _ ds) as [ys|] eqn:Hys; simpl; [|done].
    intros [= <-]. destruct (IH ys eq_refl) as [-> Hall]. simpl.
    rewrite N2Z.id. split; [done|]. constructor; [lia|done].
Qed.

Lemma forM_dims_None (ds : list (option N)) :
  None ∈ ds ->
  forM (fun d : option N => match d with
                            | Some n => Ok (Z.of_N n)
                            | None => Raise TypeError
                            end) ds = Raise TypeError.
Proof.
  induction ds as [|d ds IH]; intros Hin; [by apply elem_of_nil in Hin|].
  simpl. destruct d as [n|]; [|done].
  apply elem_of_cons in Hin as [?|Hin]; [done|]. simpl. by rewrite IH.
Qed.

Lemma get_tensor_shape_unknown_rank (t : tensor) :
  get_shape t = None -> _get_tensor_shape t = Raise ValueError.
Proof. unfold _get_tensor_shape. by intros ->. Qed.

Lemma get_tensor_shape_unknown_dim (t : tensor) ds :
  get_shape t = Some ds -> None ∈ ds -> _get_tensor_shape t = Raise TypeError.
Proof. unfold _get_tensor_shape. intros -> Hin. by apply forM_dims_None. Qed.


Lemma get_tensor_shape_Ok_inv (t : tensor) (dims : list Z) :
  _get_tensor_shape t = Ok dims ->
  get_shape t = Some ((fun d => Some (Z.to_N d)) <$> dims) /\
  Forall (fun d => 0 <= d) dims.
Proof.
  unfold _get_tensor_shape. destruct (get_shape t) as [ds|]; [|done].
  rewrite forM_dims_Ok. by intros [-> ?].
Qed.



(** *** Prepare calls: their effects and their failures *)

(** What a successful prepare call leaves: the closure's tensors in the
    new graph, the new session on that graph. *)
Lemma prepare_closure (c : prepare_call) (st : state) cl gi go (st' : state) :
  _prepare_gradient_func c st = (Ok (cl, gi, go), st') ->
  exists outs shs (gd : graph_data) (st2 : state) ish id0,
    resolved_outputs c st (input_tensor cl) outs /\
    fm_entries (g_model gd) (input_tensor cl) id0 outs
      (grads cl) (receptive_field_masks cl) shs /\
    go = GridShape_of <$> shs /\
    _get_tensor_shape (input_tensor cl) = Ok ish /\
    GridShape_star ish = Ok gi /\
    t_graph (input_tensor cl) = length (w_graphs (tf st)) /\
    Forall (fun t => t_graph t = length (w_graphs (tf st)))
      (receptive_field_masks cl) /\
    Forall (fun o : option tensor =>
              forall t, o = Some t -> t_graph t = length (w_graphs (tf st)))
      (grads cl) /\
    NoDup (input_tensor cl :: receptive_field_masks cl) /\
    builds (after_close st) st2 /\
    st' = after_finish (length (w_graphs (tf st))) st2 /\
    w_graphs (tf st2) !! length (w_graphs (tf st)) = Some gd.
Proof.
  intros Hr.
  destruct (prepare_Ok _ _ _ _ _ _ Hr)
    as (outs & shs & m & gd & st2 & ish & id0 & Hres & Hgit & Hish & Hgi & -> & Hent
        & Hin & Hgd & Hm & Hb & ->).
  subst m.
  destruct (fm_entries_length _ _ _ _ _ _ _ Hent) as (Hlg & Hlm & Hls).
  exists outs, shs, gd, st2, ish, id0. split_and!; try done.
  - apply Forall_forall. intros mask Hmask.
    apply list_elem_of_lookup in Hmask as [i Hi].
    destruct (fm_entries_masks _ _ _ _ _ _ _ _ _ Hent Hi) as [sh ->]. by simpl.
  - apply Forall_forall. intros o Ho t ->.
    apply list_elem_of_lookup in Ho as [i Hi].
    destruct (lookup_lt_is_Some_2 outs i) as [ot Hot].
    { rewrite <- Hlg. by eapply lookup_lt_Some. }
    destruct (fm_entries_lookup _ _ _ _ _ _ _ _ _ Hent Hot)
      as (g & mask & sh & Hg & _ & _ & Hentry).
    assert (g = Some t) as -> by congruence.
    destruct (fm_entry_grad_graph _ _ _ _ _ _ _ _ Hentry eq_refl) as [_ ->].
    done.
  - eapply fm_entries_NoDup; [done|]. rewrite Hgit. apply Hin.
Qed.

(** X12.  What a successful prepare call of either class does to the
    backend: after the reset and the close of a session it held, it
    creates exactly one session, on the graph it has just built, runs
    the initialiser once on it and nothing else, and keeps it in
    [self._session]; the input tensor, the mask placeholders and the
    gradients of the closure all belong to that new graph. *)
Theorem successful_prepare_effects (c : prepare_call) (st : state)
    (cl : closure) (gi : GridShape) (go : list GridShape) (st' : state) :
  _prepare_gradient_func c st = (Ok (cl, gi, go), st') ->
  w_trace (tf st') =
    w_trace (tf st) ++ close_events st ++
      [EvNewSession (length (w_sessions (tf st))) (length (w_graphs (tf st)));
       EvRunInit (length (w_sessions (tf st)))] /\
  _session st' = Some (length (w_sessions (tf st))) /\
  w_sessions (tf st') =
    w_sessions (tf (after_close st)) ++
      [mkSession (length (w_graphs (tf st))) false] /\
  (length (w_graphs (tf st)) < length (w_graphs (tf st')))%nat /\
  t_graph (input_tensor cl) = length (w_graphs (tf st)) /\
  Forall (fun t => t_graph t = length (w_graphs (tf st)))
    (receptive_field_masks cl) /\
  Forall (fun o : option tensor =>
            forall t, o = Some t -> t_graph t = length (w_graphs (tf st)))
    (grads cl).
Proof.
  intros Hr.
  destruct (prepare_closure _ _ _ _ _ _ Hr)
    as (outs & shs & gd & st2 & ish & id0 & _ & _ & _ & _ & _ & Hgit & Hmg & Hgg
        & _ & (Bs & Bss & Bt & _ & Bl) & -> & Hgd).
  unfold after_finish. simpl.
  rewrite Bss, Bt, after_close_trace, after_close_sessions_length.
  split_and!; try done.
  - by rewrite <- !app_assoc.
  - by eapply lookup_lt_Some.
Qed.



(** The result of [finish] on an existing graph. *)
Lemma finish_cases g it ish acc (st : state) (gd : graph_data) :
  w_graphs (tf st) !! g = Some gd ->
  finish g it ish acc st
  = (match m_init (g_model gd) with
     | Some msg => Raise (UserError msg)
     | None =>
         match GridShape_star ish with
         | Ok gi => Ok (mkClosure (l_masks acc) (l_grads acc) it, gi,
                        GridShape_of <$> l_shapes acc)
         | Raise e => Raise e
         end
     end, after_finish g st).
Proof.
  intros Hgd.
  unfold finish, after_finish, session_run_init, open_session. run_binds.
  rewrite lookup_app_r, Nat.sub_diag by done. simpl. rewrite Hgd. run_binds.
  destruct (m_init (g_model gd)) as [msg|]; run_binds; [done|].
  destruct (GridShape_star ish) as [gi|e]; run_binds; done.
Qed.


Lemma GridShape_star_rank ish : length ish <> 4%nat -> GridShape_star ish = Raise TypeError.
Proof. destruct ish as [|n [|h [|w [|ch [|]]]]]; done. Qed.




(** X8.  [TFReceptiveField._prepare_gradient_func] reads the rank of
    the input tensor last: when the model is built, the names resolve
    and the loop succeeds, but the static shape of the input tensor has
    not exactly four dimensions, the call raises (the error of the
    initialiser if it fails, [TypeError] of [GridShape( *input_shape )]
    otherwise) only after the new session has been created and stored,
    and that session stays open. *)
Theorem input_rank_checked_after_session
    (f : ImageShape -> string + model) (sh : ImageShape) (name : string)
    (os : list string) (st : state) (graph : nat) (it : tensor)
    (ish : list Z) (st1 : state) (acc : fm_lists) (st2 : state) (m : model) :
  f sh = inr m ->
  build_by_name f sh name (after_close st) = (Ok (graph, it, ish), st1) ->
  for_each (by_name_step graph it) os (mkLists [] [] []) st1 = (Ok acc, st2) ->
  length ish <> 4%nat ->
  TFReceptiveField_prepare_gradient_func f sh name os st
  = (Raise (match m_init m with
            | Some msg => UserError msg
            | None => TypeError
            end), after_finish graph st2) /\
  _session (after_finish graph st2) = Some (length (w_sessions (tf st2))) /\
  is_live (tf (after_finish graph st2)) (length (w_sessions (tf st2))).
Proof.
  intros Hf Hbuild Hloop Hrank.
  destruct (build_by_name_Ok _ _ _ _ _ _ _ _ Hbuild)
    as (m' & gd & -> & Hf' & _ & _ & _ & Hgd & _ & Hm).
  assert (m' = m) as -> by congruence.
  pose proof Hloop as Hloop'.
  apply for_each_by_name_run in Hloop' as (outs & Hrun).
  pose proof (by_name_run_fm_loop _ _ _ _ _ _ _ _ Hrun) as [Hfm _].
  destruct (fm_loop_entries _ _ _ _ _ _ _ _ Hfm Hgd)
    as (gs & ms & shs & gd' & _ & _ & _ & _ & Hgd' & Hm' & _).
  split_and!.
  - unfold TFReceptiveField_prepare_gradient_func.
    rewrite bind_run, close_previous_run, bind_run, Hbuild. simpl.
    rewrite bind_run, Hloop. simpl.
    rewrite (finish_cases _ _ _ _ _ gd' Hgd'), Hm', Hm.
    rewrite GridShape_star_rank by done. by destruct (m_init m).
  - done.
  - exists (length (w_graphs (tf (after_close st)))). simpl. apply lookup_snoc.
Qed.

(** *** Gradient functions *)






Lemma connected_fake_loss (m : model) (ot mask it : tensor) :
  ((exists g id sh, it = TPlaceholder g id sh) \/
   (exists g id idx s, it = TModel g id idx s)) ->
  (exists g id sh, mask = TPlaceholder g id sh) -> mask <> it ->
  connected m (fake_loss ot mask) it = connected m ot it.
Proof.
  intros Hleaf (g & id & sh & ->) Hne. unfold fake_loss.
  assert (forall a ax k, TReduceMean a ax k <> it) as Hrm
    by (intros a ax k ?; destruct Hleaf as [(?&?&?&?)|(?&?&?&?&?)]; congruence).
  assert (forall a b, TMul a b <> it) as Hmul
    by (intros a b ?; destruct Hleaf as [(?&?&?&?)|(?&?&?&?&?)]; congruence).
  cbn [connected].
  rewrite (decide_False (P := TReduceMean _ None false = it)) by apply Hrm.
  rewrite (decide_False (P := TMul _ _ = it)) by apply Hmul.
  rewrite (decide_False (P := TPlaceholder g id sh = it)) by done.
  rewrite orb_false_r.
  destruct (decide (TReduceMean ot (Some (-1)) true = it)) as [Heq|_];
    [by apply Hrm in Heq|done].
Qed.

Lemma prepare_input_leaf (c : prepare_call) (st : state) it outs :
  resolved_outputs c st it outs ->
  (exists g id sh, it = TPlaceholder g id sh) \/
  (exists g id idx s, it = TModel g id idx s).
Proof.
  destruct c as [f sh name os|f sh]; simpl.
  - intros (graph & ish & st1 & acc & st2 & Hbuild & _).
    apply build_by_name_Ok in Hbuild as (_ & _ & _ & _ & _ & Hleaf & _).
    right. destruct Hleaf as (id & idx & s & ->). by eexists _, _, _, _.
  - intros (m & -> & _). left. by eexists _, _, _.
Qed.

Lemma forM_fetch_None (g : nat) (fetches : list (option tensor)) :
  Forall (fun o : option tensor => forall t, o = Some t -> t_graph t = g) fetches ->
  None ∈ fetches ->
  forM (fun f : option tensor =>
          match f with
          | Some t => if decide (t_graph t = g) then Ok t else Raise ValueError
          | None => Raise TypeError
          end) fetches = Raise TypeError.
Proof.
  induction 1 as [|o fs Ho _ IH]; intros Hin; [by apply elem_of_nil in Hin|].
  simpl. destruct o as [t|]; [|done].
  rewrite decide_True by (by apply Ho). simpl.
  apply elem_of_cons in Hin as [?|Hin]; [done|]. by rewrite IH.
Qed.

(** The feed of a gradient function passes the checks of the session
    when the masks and the image fit. *)
Lemma fetch_dict_checks cl (fm_masks : list (ndarray R)) img g :
  Forall (fun t => t_graph t = g) (receptive_field_masks cl) ->
  t_graph (input_tensor cl) = g ->
  Forall2 (fun mask a => shape_fits a mask = true) (receptive_field_masks cl) fm_masks ->
  shape_fits img (input_tensor cl) = true ->
  forallb (fun kv : tensor * ndarray R => bool_decide (t_graph kv.1 = g))
    (fetch_dict cl fm_masks img) = true /\
  forallb (fun kv : tensor * ndarray R => shape_fits kv.2 kv.1)
    (fetch_dict cl fm_masks img) = true.
Proof.
  intros Hmg Hig Hfit Hfiti.
  assert (Forall (fun kv : tensor * ndarray R =>
                    t_graph kv.1 = g /\ shape_fits kv.2 kv.1 = true)
            (fetch_dict cl fm_masks img)) as Hfeed.
  { unfold fetch_dict. apply dict_set_values; [|done].
    apply dict_of_values. clear -Hmg Hfit.
    induction Hfit as [|mask a ms fs Hma _ IH]; simpl; [constructor|].
    inversion Hmg; subst. constructor; [done|]. by apply IH. }
  split.
  - apply (forallb_Forall _ _ _
             (fun kv Hk => bool_decide_eq_true_2 _ (proj1 Hk)) Hfeed).
  - apply (forallb_Forall _ _ _ (fun kv Hk => proj2 Hk) Hfeed).
Qed.

Lemma gradient_fn_None cl (fm_masks : list (ndarray R)) img (st : state) s g :
  _session st = Some s ->
  w_sessions (tf st) !! s = Some (mkSession g false) ->
  Forall (fun t => t_graph t = g) (receptive_field_masks cl) ->
  t_graph (input_tensor cl) = g ->
  Forall2 (fun mask a => shape_fits a mask = true) (receptive_field_masks cl) fm_masks ->
  shape_fits img (input_tensor cl) = true ->
  Forall (fun o : option tensor => forall t, o = Some t -> t_graph t = g) (grads cl) ->
  None ∈ grads cl ->
  (gradient_fn cl fm_masks img st).1 = Raise TypeError.
Proof.
  intros Hs Hsd Hmg Hig Hfit Hfiti Hgg Hnone.
  destruct st as [ss w]. simpl in Hs, Hsd. subst ss.
  destruct (fetch_dict_checks cl fm_masks img g Hmg Hig Hfit Hfiti) as [C1 C2].
  unfold gradient_fn, session_run.
  fold (fetch_dict cl fm_masks img). run_binds. rewrite Hsd. simpl.
  rewrite C1, C2. simpl. run_binds. unfold lift.
  by rewrite forM_fetch_None.
Qed.

Lemma after_finish_session g (st2 : state) :
  _session (after_finish g st2) = Some (length (w_sessions (tf st2))) /\
  w_sessions (tf (after_finish g st2)) !! length (w_sessions (tf st2))
  = Some (mkSession g false) /\
  w_graphs (tf (after_finish g st2)) = w_graphs (tf st2) /\
  w_backend (tf (after_finish g st2)) = w_backend (tf st2).
Proof. unfold after_finish. simpl. split_and!; try done. apply lookup_snoc. Qed.

(** X15.  After a successful prepare call the gradient of a feature map
    is [None] exactly when the feature map does not depend on the input
    tensor: [tf.gradients(...)[0]] is [None] and the prepare call does
    not notice.  The failure comes with the probing: as soon as one
    gradient is [None], no call of the gradient function returns, and a
    call right after the prepare call with a feed that fits raises
    [TypeError]. *)
Theorem disconnected_feature_map (c : prepare_call) (st : state)
    (cl : closure) (gi : GridShape) (go : list GridShape) (st' : state) :
  _prepare_gradient_func c st = (Ok (cl, gi, go), st') ->
  exists outs (gd : graph_data),
    resolved_outputs c st (input_tensor cl) outs /\
    w_graphs (tf st') !! t_graph (input_tensor cl) = Some gd /\
    (forall i ot, outs !! i = Some ot ->
       grads cl !! i = Some None <->
       connected (g_model gd) ot (input_tensor cl) = false) /\
    (None ∈ grads cl ->
       (forall fm_masks img sta,
          exists e, (gradient_fn cl fm_masks img sta).1 = Raise e) /\
       (forall fm_masks img,
          Forall2 (fun mask a => shape_fits a mask = true)
            (receptive_field_masks cl) fm_masks ->
          shape_fits img (input_tensor cl) = true ->
          (gradient_fn cl fm_masks img st').1 = Raise TypeError)).
Proof.
  intros Hr.
  destruct (prepare_closure _ _ _ _ _ _ Hr)
    as (outs & shs & gd & st2 & ish & id0 & Hres & Hent & _ & _ & _ & Hgit & Hmg
        & Hgg & Hnd & _ & -> & Hgd).
  exists outs, gd. split; [done|]. split; [by rewrite Hgit|].
  pose proof (prepare_input_leaf _ _ _ _ Hres) as Hleaf.
  split.
  - intros i ot Hot.
    destruct (fm_entries_lookup _ _ _ _ _ _ _ _ _ Hent Hot)
      as (g & mask & sh & Hg & Hmask & _ & Hentry).
    pose proof Hentry as (dims & d1 & d2 & _ & _ & _ & _ & Hm & _ & Hgr).
    assert (mask <> input_tensor cl) as Hne.
    { intros ->. apply NoDup_cons in Hnd as [Hnot _]. apply Hnot.
      by eapply list_elem_of_lookup_2. }
    rewrite connected_fake_loss in Hgr; [|done|by rewrite Hm; eexists _, _, _|done].
    rewrite Hg. subst g. destruct (connected _ ot _); split; congruence.
  - intros Hnone. split.
    + intros fm_masks img sta.
      destruct (gradient_fn cl fm_masks img sta) as [[vals|e] stb] eqn:Hrun;
        [|by eexists].
      exfalso.
      apply gradient_fn_Ok in Hrun as (s' & g' & gd' & Hs' & Hsd' & Hgd' & Hvals & Hst).
      apply list_elem_of_lookup in Hnone as [i Hi].
      destruct (Forall2_lookup_l _ _ _ _ _ Hvals Hi) as (v & Hv & t & Ht & Hev).
      done.
    + intros fm_masks img Hfit Hfiti.
      destruct (after_finish_session (length (w_graphs (tf st))) st2)
        as (Hs & Hsd & _ & _).
      by eapply gradient_fn_None.
Qed.

(** *** Prepare and probing together *)

(** A feed with an item that does not fit is refused. *)
Lemma gradient_fn_misfit cl (fm_masks : list (ndarray R)) img (st : state) s g :
  _session st = Some s ->
  w_sessions (tf st) !! s = Some (mkSession g false) ->
  Forall (fun t => t_graph t = g) (receptive_field_masks cl) ->
  t_graph (input_tensor cl) = g ->
  shape_fits img (input_tensor cl) = false ->
  (gradient_fn cl fm_masks img st).1 = Raise ValueError.
Proof.
  intros Hs Hsd Hmg Hig Hfiti.
  destruct st as [ss w]. simpl in Hs, Hsd. subst ss.
  unfold gradient_fn, session_run.
  fold (fetch_dict cl fm_masks img). run_binds. rewrite Hsd. simpl.
  assert (forallb (fun kv : tensor * ndarray R => bool_decide (t_graph kv.1 = g))
            (fetch_dict cl fm_masks img) = true) as ->.
  { apply (forallb_Forall _ (fun kv : tensor * ndarray R => t_graph kv.1 = g));
      [intros kv Hk; by apply bool_decide_eq_true_2|].
    unfold fetch_dict.
    apply (dict_set_keys _ _ _ (fun t => t_graph t = g)); [|done].
    apply (dict_of_values _ (fun kv : tensor * ndarray R => t_graph kv.1 = g)).
    apply Forall_forall. intros [k v] Hkv. simpl.
    assert (k ∈ (zip (receptive_field_masks cl) fm_masks).*1) as Hk
      by (apply list_elem_of_fmap; by exists (k, v)).
    apply zip_keys in Hk. by eapply (proj1 (Forall_forall _ _) Hmg). }
  simpl.
  assert (forallb (fun kv : tensor * ndarray R => shape_fits kv.2 kv.1)
            (fetch_dict cl fm_masks img) = false) as ->; [|done].
  apply (forallb_exists_false _ _ (input_tensor cl, img)); [|done].
  unfold fetch_dict. generalize (dict_of (zip (receptive_field_masks cl) fm_masks)).
  intros d. induction d as [|[k v] d IH]; simpl; [left|].
  destruct (decide (input_tensor cl = k)); [left|by right].
Qed.

Lemma shape_fits_dims (a : ndarray R) (t : tensor) (dims : list Z) n h w c :
  _get_tensor_shape t = Ok dims -> GridShape_star dims = Ok (mkGridShape n h w c) ->
  nd_shape a = (1%nat, Z.to_nat h, Z.to_nat w, Z.to_nat c) ->
  0 <= n /\ 0 <= h /\ 0 <= w /\ 0 <= c /\
  shape_fits a t = bool_decide (n = 1).
Proof.
  intros Hsh Hgs Ha.
  apply get_tensor_shape_Ok_inv in Hsh as [Hsh Hnn].
  destruct dims as [|n' [|h' [|w' [|c' [|]]]]]; try discriminate.
  injection Hgs as -> -> -> ->.
  inversion Hnn as [|? ? Hn0 Hnn1]; subst.
  inversion Hnn1 as [|? ? Hh0 Hnn2]; subst.
  inversion Hnn2 as [|? ? Hw0 Hnn3]; subst.
  inversion Hnn3 as [|? ? Hc0 _]; subst.
  split_and!; try done.
  unfold shape_fits. rewrite Hsh, Ha. simpl.
  rewrite !Z_nat_N, !N.eqb_refl. simpl. rewrite andb_true_r.
  destruct (decide (n = 1)) as [->|Hne].
  - by rewrite bool_decide_eq_true_2.
  - rewrite bool_decide_eq_false_2 by done.
    apply N.eqb_neq. lia.
Qed.

(** X18.  When [TFReceptiveField._prepare_gradient_func] has returned an
    input shape whose batch size is not 1, probing the estimator right
    after never returns: [_get_gradient_from_grid_points] raises, and
    when the points are fine the error is the [ValueError] of the
    session, which refuses the base image of batch size 1 for the input
    tensor. *)
Theorem probing_needs_batch_one (c : prepare_call) (st : state)
    (cl : closure) (gi : GridShape) (go : list GridShape) (st' : state)
    (points : list GridPoint) (intensity : R) :
  _prepare_gradient_func c st = (Ok (cl, gi, go), st') ->
  gs_n gi <> 1 ->
  exists e, (e = IndexError \/ e = ValueError) /\
    (_get_gradient_from_grid_points (built (cl, gi, go)) points intensity st').1
    = Raise e /\
    (probe_ok (built (cl, gi, go)) points -> e = ValueError).
Proof.
  intros Hr Hn.
  destruct (prepare_closure _ _ _ _ _ _ Hr)
    as (outs & shs & gd & st2 & ish & id0 & _ & _ & _ & Hish & Hgi & Hgit & Hmg
        & _ & _ & _ & -> & _).
  destruct (probe_arguments (built (cl, gi, go)) points intensity)
    as [[masks base]|e] eqn:Hargs.
  - exists ValueError. split; [by right|]. split; [|done].
    rewrite (get_gradient_unfold _ _ _ _ _ _ Hargs).
    apply probe_arguments_Ok_inv in Hargs as [_ Hbase].
    apply np_zeros_inv in Hbase as [Hbs _]. simpl in Hbs.
    destruct gi as [n h w ch].
    destruct (shape_fits_dims base _ _ _ _ _ _ Hish Hgi Hbs) as (_ & _ & _ & _ & Hfit).
    simpl in Hn. rewrite bool_decide_eq_false_2 in Hfit by done.
    destruct (after_finish_session (length (w_graphs (tf st))) st2)
      as (Hs & Hsd & _ & _).
    by eapply gradient_fn_misfit.
  - exists e. split; [by eapply probe_arguments_errors|].
    split; [by rewrite (get_gradient_raise _ _ _ _ _ Hargs)|].
    intros Hok. destruct (probe_ok_arguments _ _ intensity Hok) as (? & ? & ? & _).
    congruence.
Qed.



(** *** Feature maps and output lists at the edge *)

(** X11.  [TFFeatureMapsReceptiveField._prepare_gradient_func] on a
    feature map whose static shape cannot be used: when the loop reaches
    a feature map of unknown rank the call raises [ValueError], with an
    unknown dimension [TypeError], with fewer than three dimensions
    [IndexError], before anything is added to the graph for that
    feature map; no session has been created. *)
Theorem malformed_feature_map
    (f : tensor -> string + model * list tensor) (sh : ImageShape) (st : state)
    (graph : nat) (it : tensor) (ish : list Z) (outs : list tensor)
    (st1 : state) (pre : list tensor) (ot : tensor) (post : list tensor)
    (acc : fm_lists) (st2 : state) :
  build_by_construction f sh (after_close st) = (Ok (graph, it, ish, outs), st1) ->
  outs = pre ++ ot :: post ->
  for_each (fm_body graph it) pre (mkLists [] [] []) st1 = (Ok acc, st2) ->
  match get_shape ot with
  | None => True
  | Some ds => None ∈ ds \/ (length ds < 3)%nat
  end ->
  TFFeatureMapsReceptiveField_prepare_gradient_func f sh st
  = (Raise (match get_shape ot with
            | None => ValueError
            | Some ds => if decide (None ∈ ds) then TypeError else IndexError
            end), st2) /\
  _session st2 = _session st /\
  w_sessions (tf st2) = w_sessions (tf (after_close st)).
Proof.
  intros Hbuild -> Hloop Hbad.
  split.
  - unfold TFFeatureMapsReceptiveField_prepare_gradient_func.
    rewrite bind_run, close_previous_run, bind_run, Hbuild. simpl.
    rewrite bind_run, for_each_app, Hloop. simpl.
    unfold bind at 1. unfold fm_body at 1. rewrite bind_run. unfold lift at 1.
    destruct (get_shape ot) as [ds|] eqn:Hgs.
    + destruct (decide (None ∈ ds)) as [Hin|Hnin].
      * by rewrite (get_tensor_shape_unknown_dim ot ds Hgs Hin).
      * destruct Hbad as [?|Hlen]; [done|].
        destruct (_get_tensor_shape ot) as [dims|e] eqn:Hts.
        2:{ exfalso. unfold _get_tensor_shape in Hts. rewrite Hgs in Hts.
            apply Hnin. clear -Hts. induction ds as [|[n|] ds IH]; simpl in Hts;
              [done| |left].
            right. apply IH. destruct (forM _ ds); [done|]. simpl in Hts. congruence. }
        apply get_tensor_shape_Ok_inv in Hts as [Hds _].
        rewrite Hgs in Hds. injection Hds as ->.
        rewrite length_fmap in Hlen.
        rewrite bind_run. unfold lift at 1, py_getitem at 1.
        destruct dims as [|a [|b [|c0 dims]]]; simpl in *; try done; lia.
    + by rewrite (get_tensor_shape_unknown_rank ot Hgs).
  - pose proof (builds_build_by_construction f sh (after_close st)) as B1.
    rewrite Hbuild in B1. simpl in B1.
    pose proof (steps_for_each builds (fm_body graph it) pre (mkLists [] [] [])
                  (builds_fm_body graph it) st1) as B2.
    rewrite Hloop in B2. simpl in B2.
    destruct B1 as (S1 & SS1 & _), B2 as (S2 & SS2 & _).
    rewrite S2, S1, SS2, SS1, after_close_session. done.
Qed.

(** X14.  With an empty list of output names,
    [TFReceptiveField._prepare_gradient_func], when it succeeds, returns
    no output shape, no mask placeholder and no gradient, and its
    gradient function, called right after with an image that fits,
    returns the empty list whatever masks it is given. *)
Theorem no_output_tensors
    (f : ImageShape -> string + model) (sh : ImageShape) (name : string)
    (st : state) (cl : closure) (gi : GridShape) (go : list GridShape)
    (st' : state) :
  TFReceptiveField_prepare_gradient_func f sh name [] st = (Ok (cl, gi, go), st') ->
  go = [] /\ grads cl = [] /\ receptive_field_masks cl = [] /\
  forall fm_masks img,
    shape_fits img (input_tensor cl) = true ->
    gradient_fn cl fm_masks img st'
    = (Ok [], logged (EvRun (length (w_sessions (tf st))) []
                        [(input_tensor cl, img)]) st').
Proof.
  intros Hr.
  destruct (prepare_closure (ByName f sh name []) _ _ _ _ _ Hr)
    as (outs & shs & gd & st2 & ish & id0 & Hres & Hent & -> & _ & _ & Hgit & _
        & _ & _ & (_ & Bss & _ & _ & _) & -> & Hgd).
  destruct Hres as (graph & ish' & st1 & acc & st3 & _ & Hrun).
  inversion Hrun; subst.
  destruct (grads cl) as [|g gs] eqn:Eg, (receptive_field_masks cl) as [|mk ms] eqn:Em,
    shs as [|s0 shs]; simpl in Hent; try done.
  split_and!; try done.
  intros fm_masks img Hfiti.
  destruct (after_finish_session (length (w_graphs (tf st))) st2)
    as (Hs & Hsd & Hgs & Hbe).
  rewrite <- (after_close_sessions_length st), <- Bss.
  assert (gradient_fn cl fm_masks img
            (after_finish (length (w_graphs (tf st))) st2)
          = gradient_fn cl [] img (after_finish (length (w_graphs (tf st))) st2))
    as -> by (unfold gradient_fn; by rewrite Em).
  rewrite (gradient_fn_returns cl [] img
             (after_finish (length (w_graphs (tf st))) st2)
             (length (w_sessions (tf st2))) (length (w_graphs (tf st))) gd []);
    try done.
  - rewrite Eg. unfold fetch_dict. by rewrite Em.
  - by rewrite Em.
  - by rewrite Em.
  - by rewrite Eg.
Qed.

(** *** A prepare call that returns *)

















(** *** The failures of the gradient definition *)














End Adapter.

(** ** Concrete facts *)

(** The gradient definition on the example graph. *)
Lemma define_fm_gradient_spec_witness :
  exists g st',
    _define_fm_gradient (R:=Q) ex_input ex_output ex_mask ex_graph_state = (Ok g, st') /\
    exists gd, w_graphs (tf (R:=Q) ex_graph_state) !! t_graph ex_output = Some gd /\
      g = if connected (g_model gd) (fake_loss ex_output ex_mask) ex_input
          then Some (TGrad (fake_loss ex_output ex_mask) ex_input) else None.
Proof.
  eassert (_define_fm_gradient (R:=Q) ex_input ex_output ex_mask ex_graph_state
           = (Ok _, _)) as Hrun by (vm_compute; reflexivity).
  eexists _, _. split; [exact Hrun|].
  exact (proj1 (define_fm_gradient_spec _ _ _ _ _ _ Hrun)).
Defined.



(** The feature-map class on the example callback: all batch sizes are 1. *)
Lemma batch_dimension_witness :
  exists cl gi go st',
    _prepare_gradient_func (R:=Q) ex_by_construction ex_state = (Ok (cl, gi, go), st') /\
    Forall (fun s => gs_n s = 1) go /\ gs_n gi = 1.
Proof.
  eassert (_prepare_gradient_func (R:=Q) ex_by_construction ex_state
           = (Ok (_, _, _), _)) as Hrun by (vm_compute; reflexivity).
  eexists _, _, _, _. split; [exact Hrun|].
  destruct (batch_dimension _ _ _ _ _ _ Hrun) as (Hout & _ & Hin).
  split; [exact Hout|exact Hin].
Defined.

(** C3, as stated, fails: the name-based class returns the batch size of
    the tensor it finds, here 2. *)
Lemma input_batch_not_forced :
  exists cl gi go st',
    _prepare_gradient_func (R:=Q) ex_by_name ex_state = (Ok (cl, gi, go), st') /\
    gs_n gi <> 1.
Proof.
  eexists _, _, _, _. split; [vm_compute; reflexivity|]. simpl. lia.
Qed.



(** The name-based class on the example model: one output, one gradient. *)
Lemma gradients_aligned_witness :
  exists cl gi go st',
    _prepare_gradient_func (R:=Q) ex_by_name ex_state = (Ok (cl, gi, go), st') /\
    exists outs : list tensor,
      length go = length outs /\ length (grads cl) = length outs /\
      length (receptive_field_masks cl) = length outs.
Proof.
  eassert (_prepare_gradient_func (R:=Q) ex_by_name ex_state
           = (Ok (_, _, _), _)) as Hrun by (vm_compute; reflexivity).
  eexists _, _, _, _. split; [exact Hrun|].
  destruct (gradients_aligned _ _ _ _ _ _ Hrun)
    as (outs & m & s & gd & _ & H1 & H2 & H3 & _).
  exists outs. split; [exact H1|]. split; [exact H2|exact H3].
Defined.

(** The name-based class on the example model: the shape of the mask. *)
Lemma output_shape_and_mask_witness :
  exists cl gi go st',
    _prepare_gradient_func (R:=Q) ex_by_name ex_state = (Ok (cl, gi, go), st') /\
    exists outs : list tensor,
      length go = length outs /\
      length (receptive_field_masks cl) = length outs.
Proof.
  eassert (_prepare_gradient_func (R:=Q) ex_by_name ex_state
           = (Ok (_, _, _), _)) as Hrun by (vm_compute; reflexivity).
  eexists _, _, _, _. split; [exact Hrun|].
  destruct (output_shape_and_mask _ _ _ _ _ _ Hrun) as (outs & _ & H1 & H2 & _).
  exists outs. split; [exact H1|exact H2].
Defined.

(** Two prepare calls on a fresh estimator. *)
Lemma one_live_session_witness :
  _session (R:=Q) ex_state = None /\
  exists emitted,
    w_trace (tf (run_calls [Prepare ex_by_name; Prepare ex_by_construction]
                   (ex_state (R:=Q))))
    = w_trace (tf (R:=Q) ex_state) ++ emitted /\
    at_most_one emitted [].
Proof.
  split; [reflexivity|].
  destruct (one_live_session [Prepare ex_by_name; Prepare ex_by_construction]
              (ex_state (R:=Q)) eq_refl) as (emitted & Htr & Hone & _).
  exists emitted. split; [exact Htr|exact Hone].
Defined.



(** *** Instances of the further properties *)


(** The point (-1, -1) of a 2 x 2 grid is its last position. *)
Lemma negative_coordinates_wrap_witness :
  exists masks base,
    probe_arguments (R:=Q) ex_extractor ex_end_points 1%Q = Ok (masks, base) /\
    exists m, masks !! 0%nat = Some m /\ nd_get m 0 1 1 0 = Some 1%Q.
Proof.
  eassert (probe_arguments (R:=Q) ex_extractor ex_end_points 1%Q = Ok (_, _))
    as Hargs by (vm_compute; reflexivity).
  eexists _, _. split; [exact Hargs|].
  destruct (negative_coordinates_wrap ex_extractor ex_end_points 1%Q _ _ 0%nat
              (mkGridShape 1 2 2 1) (mkGridPoint (-1) (-1)) Hargs eq_refl eq_refl)
    as (_ & _ & m & Hm & Hget).
  exists m. split; [exact Hm|].
  rewrite (Hget 1%nat 1%nat 0%nat) by (simpl; lia). reflexivity.
Defined.


(** A third point for two feature maps. *)
Lemma surplus_points_ignored_witness :
  _get_gradient_from_grid_points (R:=Q) ex_extractor
    (ex_points ++ [mkGridPoint 9 9]) 1%Q ex_state
  = _get_gradient_from_grid_points ex_extractor ex_points 1%Q ex_state.
Proof.
  apply surplus_points_ignored. unfold num_feature_maps. simpl. lia.
Defined.

(** The example estimator with batch sizes 7 and 5. *)
Lemma probing_ignores_batch_sizes_witness :
  _get_gradient_from_grid_points (R:=Q) ex_extractor_batch ex_points 1%Q ex_state
  = _get_gradient_from_grid_points ex_extractor ex_points 1%Q ex_state.
Proof.
  apply probing_ignores_batch_sizes; reflexivity.
Defined.


(** An input of three dimensions and no output. *)
Lemma input_rank_checked_after_session_witness :
  exists st',
    TFReceptiveField_prepare_gradient_func (R:=Q) (fun _ => inr ex_rank3)
      (mkImageShape 3 3 2) "input" [] ex_state = (Raise TypeError, st') /\
    _session st' = Some 0%nat.
Proof.
  eassert (build_by_name (R:=Q) (fun _ => inr ex_rank3) (mkImageShape 3 3 2) "input"
             (after_close ex_state)
           = (Ok (_, _, _),
              (build_by_name (fun _ => inr ex_rank3) (mkImageShape 3 3 2) "input"
                 (after_close ex_state)).2)) as Hbuild
    by (vm_compute; reflexivity).
  destruct (input_rank_checked_after_session (fun _ => inr ex_rank3)
              (mkImageShape 3 3 2) "input" [] ex_state _ _ _ _ _ _ ex_rank3
              eq_refl Hbuild eq_refl) as (Hrun & Hs & _).
  { simpl. lia. }
  eexists. split; [exact Hrun|exact Hs].
Defined.



(** A feature map of shape (1, 8). *)
Lemma malformed_feature_map_witness :
  exists st2,
    TFFeatureMapsReceptiveField_prepare_gradient_func (R:=Q) ex_flat_maps
      (mkImageShape 4 4 3) ex_state = (Raise IndexError, st2) /\
    _session st2 = None.
Proof.
  eassert (build_by_construction (R:=Q) ex_flat_maps (mkImageShape 4 4 3)
             (after_close ex_state)
           = (Ok (_, _, _, _),
              (build_by_construction ex_flat_maps (mkImageShape 4 4 3)
                 (after_close ex_state)).2)) as Hbuild
    by (vm_compute; reflexivity).
  destruct (malformed_feature_map ex_flat_maps (mkImageShape 4 4 3) ex_state
              _ _ _ _ _ [] (TModel 0 0 0 (Some [Some 1; Some 8]%N)) []
              _ _ Hbuild eq_refl eq_refl) as (Hrun & Hs & _).
  { simpl. right. lia. }
  eexists. split; [exact Hrun|exact Hs].
Defined.

(** The example prepare call on a fresh estimator. *)
Lemma successful_prepare_effects_witness :
  exists cl gi go st',
    _prepare_gradient_func (R:=Q) ex_by_construction ex_state
    = (Ok (cl, gi, go), st') /\
    w_trace (tf st') = [EvNewSession 0 0; EvRunInit 0] /\
    _session st' = Some 0%nat.
Proof.
  eassert (_prepare_gradient_func (R:=Q) ex_by_construction ex_state
           = (Ok (_, _, _), ex_prepared)) as Hrun by (vm_compute; reflexivity).
  eexists _, _, _, _. split; [exact Hrun|].
  destruct (successful_prepare_effects _ _ _ _ _ _ Hrun) as (Htr & Hs & _).
  split; [exact Htr|exact Hs].
Defined.


(** The name-based class on the example model without output names. *)
Lemma no_output_tensors_witness :
  exists cl gi go st',
    TFReceptiveField_prepare_gradient_func (R:=Q) (fun _ => inr ex_model)
      (mkImageShape 3 3 2) "input" [] ex_state = (Ok (cl, gi, go), st') /\
    go = [].
Proof.
  eassert (TFReceptiveField_prepare_gradient_func (R:=Q) (fun _ => inr ex_model)
             (mkImageShape 3 3 2) "input" [] ex_state
           = (Ok (_, _, _),
              (TFReceptiveField_prepare_gradient_func (fun _ => inr ex_model)
                 (mkImageShape 3 3 2) "input" [] ex_state).2)) as Hrun
    by (vm_compute; reflexivity).
  eexists _, _, _, _. split; [exact Hrun|].
  exact (proj1 (no_output_tensors _ _ _ _ _ _ _ _ Hrun)).
Defined.

(** A feature map that does not depend on the input: the prepare call
    returns, the gradient function never does. *)
Lemma disconnected_feature_map_witness :
  exists cl gi go st',
    _prepare_gradient_func (R:=Q)
      (ByConstruction ex_disconnected_maps (mkImageShape 4 4 3)) ex_state
    = (Ok (cl, gi, go), st') /\
    grads cl = [None] /\
    exists e, (gradient_fn cl [nd_const 1 2 2 1 1%Q] (nd_const 1 4 4 3 0%Q) st').1
              = Raise e.
Proof.
  eassert (_prepare_gradient_func (R:=Q)
             (ByConstruction ex_disconnected_maps (mkImageShape 4 4 3)) ex_state
           = (Ok (_, _, _),
              (_prepare_gradient_func
                 (ByConstruction ex_disconnected_maps (mkImageShape 4 4 3))
                 ex_state).2)) as Hrun by (vm_compute; reflexivity).
  eexists _, _, _, _. split; [exact Hrun|]. split; [reflexivity|].
  pose proof (disconnected_feature_map _ _ _ _ _ _ Hrun) as Hdis.
  destruct Hdis as (outs & Hdis). destruct Hdis as (gd & Hdis).
  destruct Hdis as (_ & _ & _ & Hnone).
  exact (proj1 (Hnone ltac:(left)) _ _ _).
Defined.



(** The name-based class on the example model, whose input has batch
    size 2: prepared, but not to be probed. *)
Lemma probing_needs_batch_one_witness :
  exists cl gi go st',
    _prepare_gradient_func (R:=Q) ex_by_name ex_state = (Ok (cl, gi, go), st') /\
    gs_n gi <> 1 /\
    exists e,
      (_get_gradient_from_grid_points (built (cl, gi, go)) [mkGridPoint 1 1] 1%Q st').1
      = Raise e.
Proof.
  eassert (_prepare_gradient_func (R:=Q) ex_by_name ex_state
           = (Ok (_, _, _), (_prepare_gradient_func ex_by_name ex_state).2))
    as Hrun by (vm_compute; reflexivity).
  eexists _, _, _, _. split; [exact Hrun|].
  assert (2 <> 1) as Hn by lia. split; [exact Hn|].
  pose proof (probing_needs_batch_one _ _ _ _ _ _ [mkGridPoint 1 1] 1%Q Hrun Hn)
    as Hprobe.
  destruct Hprobe as (e & Hprobe). destruct Hprobe as (_ & He & _).
  exists e. exact He.
Defined.


